(** * The ART intern table (src/src/intern_table.cc)

    A shallow embedding of [art::InternTable]: three hash-keyed multimaps of
    [String*] (strong, weak, image-strong), the lookup / insert / remove
    helpers, the core [Insert(String*, bool)] algorithm with promotion, the
    null-safe wrappers, [ContainsWeak], root visiting and the weak sweep.

    Every public method takes [intern_table_lock_] for its whole body, so a
    method is one atomic transition of the table; the model is sequential
    and the lock itself is not represented. *)

From Stdlib Require Import ZArith List Bool Lia Permutation.
From Stdlib Require String DecimalString DecimalNat.
Import ListNotations.
Local Open Scope Z_scope.

(** ** Pointers and faults *)

(** A non-null [String*] is the address of a String object; [String*] itself
    is [option address], with [None] for [NULL]. *)
Definition address := positive.
Definition StringPtr := option address.
Definition NULL : StringPtr := None.

(** The outcome of running a method: it returns, or it dereferences [NULL]
    (or trips [DCHECK(s != NULL)]) and the process dies. *)
Inductive outcome (A : Type) : Type :=
| Returns (a : A)
| NullFault.
Arguments Returns {A} a.
Arguments NullFault {A}.

(** [uint32_t hash_code = s->GetHashCode();] *)
Definition to_uint32 (z : Z) : Z := z mod 2 ^ 32.

(** ** std::multimap<hash, String*> *)

(** Modelled from the spec: [Table], declared in intern_table.h (not among
    the sources at hand), is a multimap from a 32-bit content hash to the
    String references stored under it.  The file is C++03 (its iterator
    typedefs wait for "C++0x auto"), where the multimap is [std::multimap]:
    the list is the container in iteration order, keys ascending and equal
    keys in insertion order. *)
Definition Table := list (Z * address).

(** [table.insert(std::make_pair(k, v))]: after the last element whose key
    does not exceed [k]. *)
Fixpoint mm_insert (table : Table) (k : Z) (v : address) : Table :=
  match table with
  | [] => [(k, v)]
  | (k', v') :: rest =>
      if k <? k' then (k, v) :: table else (k', v') :: mm_insert rest k v
  end.

(** [table.find(k)] as the range [[it, table.end())] the loops walk: the
    elements from the first one stored under [k] onwards, and the empty
    range ([it == end]) when no element has that key. *)
Fixpoint mm_find (table : Table) (k : Z) : Table :=
  match table with
  | [] => []
  | (k', v') :: rest => if k' =? k then table else mm_find rest k
  end.

(** The String references of a table, in iteration order ([it->second]). *)
Definition refs (table : Table) : list address := map snd table.

(** ** The intern table *)

Record InternTable : Type := mkInternTable {
  strong_interns_ : Table;
  weak_interns_ : Table;
  image_strong_interns_ : Table
}.

(** [InternTable::InternTable()] *)
Definition empty_table : InternTable := mkInternTable [] [] [].

(** [size_t InternTable::Size() const].  Each size counts tree nodes that
    live in the address space, a node being several words wide, so the sum
    of the two stays far below the largest [size_t] and does not wrap; it
    is a natural number here. *)
Definition Size (t : InternTable) : nat :=
  (length (strong_interns_ t) + length (weak_interns_ t))%nat.

(** What [os << n] writes for a [size_t] on a stream left in its default
    (decimal) formatting. *)
Definition decimal (n : nat) : String.string :=
  DecimalString.NilEmpty.string_of_uint (Nat.to_uint n).

(** The characters [decimal] writes, and the texts made of them only. *)
Definition is_digit (c : Ascii.ascii) : bool :=
  (48 <=? Ascii.nat_of_ascii c)%nat && (Ascii.nat_of_ascii c <=? 57)%nat.

Fixpoint all_digits (text : String.string) : bool :=
  match text with
  | String.EmptyString => true
  | String.String c rest => is_digit c && all_digits rest
  end.

(** The pieces of text [DumpForSigQuit] writes between the numbers. *)
Module DumpText.
Import String.
Definition header : string := "Intern table: ".
Definition after_strong : string := " strong; ".
Definition after_weak : string := " weak; ".
Definition after_image : string :=
  " image strong" ++ String (Ascii.ascii_of_nat 10) EmptyString.
End DumpText.

(** [void InternTable::DumpForSigQuit(std::ostream& os) const]; the stream
    is the text written to it so far. *)
Definition DumpForSigQuit (os : String.string) (t : InternTable) : String.string :=
  String.append os
    (String.append DumpText.header
       (String.append (decimal (length (strong_interns_ t)))
          (String.append DumpText.after_strong
             (String.append (decimal (length (weak_interns_ t)))
                (String.append DumpText.after_weak
                   (String.append (decimal (length (image_strong_interns_ t)))
                      DumpText.after_image)))))).

(** ** Collector callbacks

    [Heap::RootVisitor] and [Heap::IsMarkedTester] are C function pointers
    called with an opaque [void* arg]; what they do to [arg] is threaded
    through as a state of type [A]. *)
Definition RootVisitor (A : Type) := address -> A -> A.
Definition IsMarkedTester (A : Type) := address -> A -> bool * A.

(** ** A small heap to run the table on *)

Module Demo.
Import String.

(** Strings 1, 2 and 3 read "art", 4 and 5 read "dex", every other one
    "oat". *)
Definition content (a : address) : string :=
  match a with
  | 1%positive | 2%positive | 3%positive => "art"%string
  | 4%positive | 5%positive => "dex"%string
  | _ => "oat"%string
  end.

(** The usual polynomial hash, base 31, over the characters. *)
Fixpoint hash_from (h : Z) (c : string) : Z :=
  match c with
  | EmptyString => h
  | String ch rest => hash_from (31 * h + Z.of_nat (Ascii.nat_of_ascii ch)) rest
  end.

Definition hash (c : string) : Z := hash_from 0 c.

(** "dex" registered from the image. *)
Definition image_only : InternTable :=
  mkInternTable [] [] [(99351, 4%positive)].

(** Then "oat" interned strongly. *)
Definition before_weak : InternTable :=
  mkInternTable [(109794, 6%positive)] [] [(99351, 4%positive)].

(** Then "art" interned weakly. *)
Definition interned : InternTable :=
  mkInternTable [(109794, 6%positive)] [(96867, 1%positive)] [(99351, 4%positive)].

(** "art" registered from the image once, and twice from two objects. *)
Definition image_art : InternTable :=
  mkInternTable [] [] [(96867, 1%positive)].

Definition image_art_twice : InternTable :=
  mkInternTable [] [] [(96867, 1%positive); (96867, 2%positive)].

(** A collector that has marked only the "art" Strings. *)
Definition art_is_live (object : address) : bool := Pos.leb object 3.

End Demo.

Section Runtime.

(** ** The String collaborator *)

(** Modelled from the spec: String (mirror::String in the runtime, absent
    from the sources at hand) is an immutable value with a stable
    content-derived hash code and a value-equality comparison.  [content] is
    the heap seen through String pointers; it never changes because the
    table neither allocates nor writes Strings. *)
Variable Content : Type.
Variable Content_eq_dec : forall a b : Content, {a = b} + {a <> b}.
Variable content : address -> Content.
Variable hash : Content -> Z.

(** [existing_string->Equals(s)] *)
Definition Equals (existing_string s : address) : bool :=
  if Content_eq_dec (content existing_string) (content s) then true else false.

(** [s->GetHashCode()] *)
Definition GetHashCode (s : address) : Z := hash (content s).

(** ** The private table helpers *)

(** The body of the loop of [Lookup], over the range still to walk. *)
Fixpoint scan_equal (s : address) (range : Table) : StringPtr :=
  match range with
  | [] => NULL
  | (_, existing_string) :: rest =>
      if Equals existing_string s then Some existing_string
      else scan_equal s rest
  end.

(** [String* InternTable::Lookup(Table& table, String* s, uint32_t hash_code)] *)
Definition Lookup (table : Table) (s : address) (hash_code : Z) : StringPtr :=
  scan_equal s (mm_find table hash_code).

(** [String* InternTable::Insert(Table& table, String* s, uint32_t hash_code)];
    the returned pointer is [s] itself. *)
Definition TableInsert (table : Table) (s : address) (hash_code : Z) : Table :=
  mm_insert table hash_code s.

(** The loop of [Remove] over the range from the iterator on: erase the
    first element whose pointer is [s] and stop. *)
Fixpoint erase_first (s : address) (range : Table) : Table :=
  match range with
  | [] => []
  | (k, v) :: rest =>
      if Pos.eqb v s then rest else (k, v) :: erase_first s rest
  end.

(** [void InternTable::Remove(Table& table, const String* s, uint32_t hash_code)]:
    the elements before [table.find(hash_code)] are kept, the loop runs on
    the rest. *)
Fixpoint Remove (table : Table) (s : address) (hash_code : Z) : Table :=
  match table with
  | [] => []
  | (k', v') :: rest =>
      if k' =? hash_code then erase_first s table
      else (k', v') :: Remove rest s hash_code
  end.

(** [void InternTable::RegisterStrong(String* s)] *)
Definition RegisterStrong (t : InternTable) (s : StringPtr) : outcome InternTable :=
  match s with
  | None => NullFault
  | Some s =>
      Returns (mkInternTable
                 (strong_interns_ t)
                 (weak_interns_ t)
                 (TableInsert (image_strong_interns_ t) s (to_uint32 (GetHashCode s))))
  end.

(** [String* InternTable::Insert(String* s, bool is_strong)] *)
Definition Insert (t : InternTable) (s : StringPtr) (is_strong : bool)
  : outcome (StringPtr * InternTable) :=
  match s with
  | None => NullFault
  | Some s =>
      let hash_code := to_uint32 (GetHashCode s) in
      if is_strong then
        match Lookup (strong_interns_ t) s hash_code with
        | Some strong => Returns (Some strong, t)
        | None =>
            match Lookup (image_strong_interns_ t) s hash_code with
            | Some image => Returns (Some image, t)
            | None =>
                match Lookup (weak_interns_ t) s hash_code with
                | Some weak =>
                    Returns (Some weak,
                             mkInternTable
                               (TableInsert (strong_interns_ t) weak hash_code)
                               (Remove (weak_interns_ t) weak hash_code)
                               (image_strong_interns_ t))
                | None =>
                    Returns (Some s,
                             mkInternTable
                               (TableInsert (strong_interns_ t) s hash_code)
                               (weak_interns_ t)
                               (image_strong_interns_ t))
                end
            end
        end
      else
        match Lookup (strong_interns_ t) s hash_code with
        | Some strong => Returns (Some strong, t)
        | None =>
            match Lookup (image_strong_interns_ t) s hash_code with
            | Some image => Returns (Some image, t)
            | None =>
                match Lookup (weak_interns_ t) s hash_code with
                | Some weak => Returns (Some weak, t)
                | None =>
                    Returns (Some s,
                             mkInternTable
                               (strong_interns_ t)
                               (TableInsert (weak_interns_ t) s hash_code)
                               (image_strong_interns_ t))
                end
            end
        end
  end.

(** [String* InternTable::InternStrong(String* s)] *)
Definition InternStrong (t : InternTable) (s : StringPtr)
  : outcome (StringPtr * InternTable) :=
  match s with
  | None => Returns (NULL, t)
  | Some _ => Insert t s true
  end.

(** [String* InternTable::InternWeak(String* s)] *)
Definition InternWeak (t : InternTable) (s : StringPtr)
  : outcome (StringPtr * InternTable) :=
  match s with
  | None => Returns (NULL, t)
  | Some _ => Insert t s false
  end.

(** [bool InternTable::ContainsWeak(String* s)]: [s->GetHashCode()] is
    evaluated first, then [found == s] compares pointers. *)
Definition ContainsWeak (t : InternTable) (s : StringPtr) : outcome bool :=
  match s with
  | None => NullFault
  | Some s =>
      match Lookup (weak_interns_ t) s (to_uint32 (GetHashCode s)) with
      | Some found => Returns (Pos.eqb found s)
      | None => Returns false
      end
  end.

(** [void InternTable::VisitRoots(Heap::RootVisitor* visitor, void* arg) const] *)
Definition VisitRoots {A : Type} (visitor : RootVisitor A) (arg : A)
  (t : InternTable) : A :=
  fold_left (fun a entry => visitor (snd entry) a) (strong_interns_ t) arg.

(** The loop of [SweepInternTableWeaks] from the iterator on.  Erasing a
    multimap node leaves every other iterator valid, so the walk goes on
    with the next element either way. *)
Fixpoint sweep_range {A : Type} (is_marked : IsMarkedTester A)
  (range : Table) (arg : A) : Table * A :=
  match range with
  | [] => ([], arg)
  | (k, object) :: rest =>
      let (marked, arg1) := is_marked object arg in
      let (kept, arg2) := sweep_range is_marked rest arg1 in
      (if marked then (k, object) :: kept else kept, arg2)
  end.

(** [void InternTable::SweepInternTableWeaks(Heap::IsMarkedTester is_marked, void* arg)] *)
Definition SweepInternTableWeaks {A : Type} (is_marked : IsMarkedTester A)
  (arg : A) (t : InternTable) : InternTable * A :=
  let (kept, arg') := sweep_range is_marked (weak_interns_ t) arg in
  (mkInternTable (strong_interns_ t) kept (image_strong_interns_ t), arg').

(** ** Vocabulary of the properties *)

(** The key [Insert], [RegisterStrong] and [ContainsWeak] compute for [s]. *)
Definition hash_code_of (s : address) : Z := to_uint32 (GetHashCode s).

(** Some entry of the table is value-equal to [s]. *)
Definition has_equal (table : Table) (s : address) : bool :=
  existsb (fun existing => Equals existing s) (refs table).

(** Every entry sits under the hash code of its own String. *)
Definition keyed (table : Table) : Prop :=
  Forall (fun entry => fst entry = hash_code_of (snd entry)) table.

Definition keyed_tables (t : InternTable) : Prop :=
  keyed (strong_interns_ t) /\ keyed (weak_interns_ t) /\
  keyed (image_strong_interns_ t).

(** The order [std::multimap] keeps its elements in: keys never go down
    along the list. *)
Fixpoint ascending (table : Table) : Prop :=
  match table with
  | [] => True
  | (k, _) :: rest => Forall (fun entry => k <= fst entry) rest /\ ascending rest
  end.

Definition ascending_tables (t : InternTable) : Prop :=
  ascending (strong_interns_ t) /\ ascending (weak_interns_ t) /\
  ascending (image_strong_interns_ t).

(** The references interned at run time (what [Size] counts), and all the
    references of the table with the image ones. *)
Definition dynamic_refs (t : InternTable) : list address :=
  refs (strong_interns_ t) ++ refs (weak_interns_ t).

Definition all_refs (t : InternTable) : list address :=
  refs (image_strong_interns_ t) ++ dynamic_refs t.

(** No two entries of the list hold the same content. *)
Definition distinct_contents (l : list address) : Prop := NoDup (map content l).

(** Invariant I1, as worded: one reference at most per value across strong
    and image, no value in both strong and weak, and a weak entry is an
    object other than every strong or image entry. *)
Definition I1 (t : InternTable) : Prop :=
  let canonical := refs (strong_interns_ t) ++ refs (image_strong_interns_ t) in
  (forall a b, In a canonical -> In b canonical -> content a = content b -> a = b) /\
  (forall a b, In a (refs (strong_interns_ t)) -> In b (refs (weak_interns_ t)) ->
               content a <> content b) /\
  (forall a b, In a canonical -> In b (refs (weak_interns_ t)) -> a <> b).

(** What every run keeps: the tables are keyed and the run-time entries hold
    pairwise different values. *)
Definition well_formed (t : InternTable) : Prop :=
  keyed_tables t /\ distinct_contents (dynamic_refs t).

(** The same with the image entries counted in: a value has one entry in the
    whole table. *)
Definition canonical (t : InternTable) : Prop :=
  keyed_tables t /\ distinct_contents (all_refs t).

(** When [RegisterStrong] may run: any time; only while nothing is interned
    (start-up); at start-up and with a String whose value the image table
    does not hold yet. *)
Definition any_time (t : InternTable) (s : address) : Prop := True.

Definition at_startup (t : InternTable) (s : address) : Prop :=
  strong_interns_ t = [] /\ weak_interns_ t = [].

Definition at_startup_deduplicated (t : InternTable) (s : address) : Prop :=
  at_startup t s /\ has_equal (image_strong_interns_ t) s = false.

(** The tables a run of the public methods can produce from the empty
    table, with [RegisterStrong] called only where [may_register] holds.
    [Size], [DumpForSigQuit], [VisitRoots] and [ContainsWeak] leave the
    table as it is. *)
Inductive reachable (may_register : InternTable -> address -> Prop)
  : InternTable -> Prop :=
| reach_empty : reachable may_register empty_table
| reach_RegisterStrong t s t' :
    reachable may_register t -> may_register t s ->
    RegisterStrong t (Some s) = Returns t' ->
    reachable may_register t'
| reach_InternStrong t s r t' :
    reachable may_register t ->
    InternStrong t (Some s) = Returns (r, t') ->
    reachable may_register t'
| reach_InternWeak t s r t' :
    reachable may_register t ->
    InternWeak t (Some s) = Returns (r, t') ->
    reachable may_register t'
| reach_Sweep (A : Type) (is_marked : IsMarkedTester A) (arg : A) t :
    reachable may_register t ->
    reachable may_register (fst (SweepInternTableWeaks is_marked arg t)).

(** The tables a run of the public methods can produce from a given
    table. *)
Inductive evolves (may_register : InternTable -> address -> Prop)
  (t : InternTable) : InternTable -> Prop :=
| evolves_refl : evolves may_register t t
| evolves_RegisterStrong t1 s t2 :
    evolves may_register t t1 -> may_register t1 s ->
    RegisterStrong t1 (Some s) = Returns t2 ->
    evolves may_register t t2
| evolves_InternStrong t1 s r t2 :
    evolves may_register t t1 ->
    InternStrong t1 (Some s) = Returns (r, t2) ->
    evolves may_register t t2
| evolves_InternWeak t1 s r t2 :
    evolves may_register t t1 ->
    InternWeak t1 (Some s) = Returns (r, t2) ->
    evolves may_register t t2
| evolves_Sweep (A : Type) (is_marked : IsMarkedTester A) (arg : A) t1 :
    evolves may_register t t1 ->
    evolves may_register t (fst (SweepInternTableWeaks is_marked arg t1)).

(** ** Observing the callbacks *)

(** A root visitor that also notes each reference it is called with. *)
Definition recording {A : Type} (visitor : RootVisitor A)
  : RootVisitor (A * list address) :=
  fun root st => (visitor root (fst st), snd st ++ [root]).

(** A liveness tester that also notes each object it is asked about and
    what it answered. *)
Definition tracing {A : Type} (is_marked : IsMarkedTester A)
  : IsMarkedTester (A * list (address * bool)) :=
  fun object st =>
    let (marked, arg') := is_marked object (fst st) in
    (marked, (arg', snd st ++ [(object, marked)])).

(** A tester that reads the mark of an object and leaves [arg] alone. *)
Definition pure_tester {A : Type} (live : address -> bool) : IsMarkedTester A :=
  fun object arg => (live object, arg).

(** ** Facts about the multimap and the helpers *)

Lemma Equals_true (a b : address) :
  Equals a b = true <-> content a = content b.
Proof.
  unfold Equals. destruct (Content_eq_dec (content a) (content b)); split;
    intros; auto; discriminate.
Qed.

Lemma Equals_false (a b : address) :
  Equals a b = false <-> content a <> content b.
Proof.
  unfold Equals. destruct (Content_eq_dec (content a) (content b)); split;
    intros; auto; try discriminate. contradiction.
Qed.

Lemma Equals_same_content (e s s' : address) :
  content s = content s' -> Equals e s = Equals e s'.
Proof. unfold Equals. intros ->. reflexivity. Qed.

Lemma hash_code_same_content (s s' : address) :
  content s = content s' -> hash_code_of s = hash_code_of s'.
Proof. unfold hash_code_of, GetHashCode. intros ->. reflexivity. Qed.

Lemma scan_equal_Some (s : address) (range : Table) (e : address) :
  scan_equal s range = Some e -> In e (refs range) /\ Equals e s = true.
Proof.
  induction range as [|[k x] rest IH]; simpl; [discriminate|].
  destruct (Equals x s) eqn:E.
  - intros [= <-]. auto.
  - intros H. destruct (IH H). auto.
Qed.

Lemma scan_equal_None (s : address) (range : Table) :
  scan_equal s range = None <-> has_equal range s = false.
Proof.
  unfold has_equal, refs.
  induction range as [|[k x] rest IH]; simpl; [tauto|].
  destruct (Equals x s); simpl; [split; discriminate | exact IH].
Qed.

Lemma has_equal_false (table : Table) (s : address) :
  has_equal table s = false <->
  forall e, In e (refs table) -> content e <> content s.
Proof.
  unfold has_equal. split.
  - intros H e He. apply Equals_false.
    destruct (Equals e s) eqn:E; [|reflexivity].
    rewrite <- H. symmetry. apply existsb_exists. eauto.
  - intros H. destruct (existsb _ _) eqn:E; [|reflexivity].
    apply existsb_exists in E. destruct E as (e & He & E).
    apply Equals_true in E. destruct (H e He E).
Qed.

Lemma has_equal_true (table : Table) (s : address) :
  has_equal table s = true <->
  exists e, In e (refs table) /\ content e = content s.
Proof.
  unfold has_equal. rewrite existsb_exists. split; intros (e & He & E);
    exists e; split; auto; apply Equals_true; exact E.
Qed.

Lemma scan_equal_same_content (s s' : address) (range : Table) :
  content s = content s' -> scan_equal s range = scan_equal s' range.
Proof.
  intros H. induction range as [|[k x] rest IH]; simpl; [reflexivity|].
  rewrite (Equals_same_content x s s' H), IH. reflexivity.
Qed.

Lemma mm_find_suffix (table : Table) (k : Z) :
  exists before, table = before ++ mm_find table k /\
                 Forall (fun entry => fst entry <> k) before.
Proof.
  induction table as [|[k' v'] rest IH]; simpl.
  - exists []. auto.
  - destruct (Z.eqb_spec k' k) as [->|N].
    + exists []. auto.
    + destruct IH as (before & E & F). exists ((k', v') :: before).
      simpl. split; [congruence | constructor; auto].
Qed.

Lemma Lookup_Some (table : Table) (s : address) (h : Z) (e : address) :
  Lookup table s h = Some e -> In e (refs table) /\ Equals e s = true.
Proof.
  unfold Lookup. intros H. apply scan_equal_Some in H. destruct H as [I E].
  split; [|exact E].
  destruct (mm_find_suffix table h) as (before & T & _).
  rewrite T. unfold refs in *. rewrite map_app. apply in_or_app. auto.
Qed.

Lemma Lookup_same_content (table : Table) (s s' : address) (h : Z) :
  content s = content s' -> Lookup table s h = Lookup table s' h.
Proof. intros H. unfold Lookup. apply scan_equal_same_content, H. Qed.

(** In a keyed table the entries before the bucket of [s] cannot equal [s],
    so the walk from [find] sees as much as a walk of the whole table. *)
Lemma Lookup_keyed (table : Table) (s : address) :
  keyed table -> Lookup table s (hash_code_of s) = scan_equal s table.
Proof.
  unfold Lookup. induction table as [|[k' v'] rest IH]; simpl; intros K;
    [reflexivity|].
  inversion K as [|? ? Kh Kr]; subst; simpl in Kh.
  destruct (Z.eqb_spec k' (hash_code_of s)) as [E|N]; [reflexivity|].
  rewrite (IH Kr). destruct (Equals v' s) eqn:Q; [|reflexivity].
  apply Equals_true, hash_code_same_content in Q. congruence.
Qed.

Lemma Lookup_None_keyed (table : Table) (s : address) :
  keyed table ->
  (Lookup table s (hash_code_of s) = None <-> has_equal table s = false).
Proof. intros K. rewrite (Lookup_keyed _ _ K). apply scan_equal_None. Qed.

Lemma mm_insert_split (table : Table) (k : Z) (v : address) :
  exists l1 l2, table = l1 ++ l2 /\ mm_insert table k v = l1 ++ (k, v) :: l2.
Proof.
  induction table as [|[k' v'] rest IH]; simpl.
  - exists [], []. auto.
  - destruct (k <? k').
    + exists [], ((k', v') :: rest). auto.
    + destruct IH as (l1 & l2 & E & I). exists ((k', v') :: l1), l2.
      simpl. split; congruence.
Qed.

Lemma mm_insert_perm (table : Table) (k : Z) (v : address) :
  Permutation (refs (mm_insert table k v)) (v :: refs table).
Proof.
  destruct (mm_insert_split table k v) as (l1 & l2 & E & I).
  rewrite I, E. unfold refs. rewrite !map_app. simpl.
  symmetry. apply Permutation_middle.
Qed.

Lemma mm_insert_length (table : Table) (k : Z) (v : address) :
  length (mm_insert table k v) = S (length table).
Proof.
  destruct (mm_insert_split table k v) as (l1 & l2 & E & I).
  rewrite I, E, !length_app. simpl. lia.
Qed.

Lemma keyed_mm_insert (table : Table) (v : address) :
  keyed table -> keyed (mm_insert table (hash_code_of v) v).
Proof.
  intros K. destruct (mm_insert_split table (hash_code_of v) v)
    as (l1 & l2 & E & I).
  unfold keyed in *. rewrite I. rewrite E in K.
  apply Forall_app in K. destruct K as [K1 K2].
  apply Forall_app. split; [exact K1 | constructor; auto].
Qed.

Lemma erase_first_split (s : address) (range : Table) :
  In s (refs range) ->
  exists l1 l2 k, range = l1 ++ (k, s) :: l2 /\ erase_first s range = l1 ++ l2.
Proof.
  induction range as [|[k v] rest IH]; simpl; [intros []|].
  destruct (Pos.eqb_spec v s) as [->|N].
  - intros _. exists [], rest, k. auto.
  - intros [E|I]; [congruence|].
    destruct (IH I) as (l1 & l2 & k0 & E1 & E2).
    exists ((k, v) :: l1), l2, k0. simpl. split; congruence.
Qed.

Lemma Remove_split (table : Table) (s : address) (h : Z) :
  In s (refs (mm_find table h)) ->
  exists l1 l2 k, table = l1 ++ (k, s) :: l2 /\ Remove table s h = l1 ++ l2.
Proof.
  induction table as [|[k' v'] rest IH]; [simpl; intros []|].
  cbn [mm_find Remove]. destruct (k' =? h).
  - apply erase_first_split.
  - intros I. destruct (IH I) as (l1 & l2 & k0 & E1 & E2).
    exists ((k', v') :: l1), l2, k0. simpl. split; congruence.
Qed.

Lemma Lookup_Remove_split (table : Table) (s w : address) (h : Z) :
  Lookup table s h = Some w ->
  exists l1 l2 k, table = l1 ++ (k, w) :: l2 /\ Remove table w h = l1 ++ l2.
Proof.
  unfold Lookup. intros H. apply scan_equal_Some in H.
  apply Remove_split. tauto.
Qed.

Lemma scan_equal_insert_fresh (s v : address) (table : Table) (k : Z) :
  scan_equal s table = None -> Equals v s = true ->
  scan_equal s (mm_insert table k v) = Some v.
Proof.
  intros H E. induction table as [|[k' v'] rest IH]; simpl in *.
  - rewrite E. reflexivity.
  - destruct (Equals v' s) eqn:Q; [discriminate|].
    destruct (k <? k'); simpl; [rewrite E | rewrite Q]; auto.
Qed.

(** A String inserted after a failed lookup is what the next lookup of an
    equal String under the same hash returns. *)
Lemma Lookup_insert_fresh (table : Table) (s v : address) (k : Z) :
  Lookup table s k = None -> Equals v s = true ->
  Lookup (mm_insert table k v) s k = Some v.
Proof.
  unfold Lookup. intros H E.
  induction table as [|[k' v'] rest IH]; simpl in *.
  - rewrite Z.eqb_refl. simpl. rewrite E. reflexivity.
  - destruct (k <? k') eqn:L; simpl.
    + rewrite Z.eqb_refl. simpl. rewrite E. reflexivity.
    + destruct (k' =? k) eqn:Q.
      * simpl in *. destruct (Equals v' s); [discriminate|].
        apply scan_equal_insert_fresh; assumption.
      * apply IH, H.
Qed.

Lemma Insert_returns (t : InternTable) (s : address) (is_strong : bool) :
  exists r t', Insert t (Some s) is_strong = Returns (Some r, t').
Proof.
  unfold Insert.
  destruct is_strong;
    destruct (Lookup (strong_interns_ t) s _); eauto;
    destruct (Lookup (image_strong_interns_ t) s _); eauto;
    destruct (Lookup (weak_interns_ t) s _); eauto.
Qed.

Lemma keyed_app (l1 l2 : Table) : keyed (l1 ++ l2) <-> keyed l1 /\ keyed l2.
Proof. apply Forall_app. Qed.

Lemma keyed_without (l1 l2 : Table) (entry : Z * address) :
  keyed (l1 ++ entry :: l2) -> keyed (l1 ++ l2).
Proof.
  rewrite !keyed_app. intros [K1 K2]. inversion K2; subst. auto.
Qed.

Lemma all_lookups_fail (t : InternTable) (s : address) :
  keyed_tables t ->
  Lookup (strong_interns_ t) s (hash_code_of s) = None ->
  Lookup (image_strong_interns_ t) s (hash_code_of s) = None ->
  Lookup (weak_interns_ t) s (hash_code_of s) = None ->
  forall e, In e (all_refs t) -> content e <> content s.
Proof.
  intros (Ks & Kw & Ki) Ls Li Lw e He.
  apply Lookup_None_keyed in Ls, Li, Lw; trivial.
  rewrite has_equal_false in Ls, Li, Lw.
  unfold all_refs, dynamic_refs in He. rewrite !in_app_iff in He.
  destruct He as [H|[H|H]]; eauto.
Qed.

(** What one [Insert] does to the table: it stays keyed, the image table is
    not touched, and the run-time references are either the same ones
    (a hit, or a promotion that moves one) or the old ones and [s], which
    then equals no entry of any of the three tables. *)
Lemma Insert_effect (t : InternTable) (s : address) (is_strong : bool)
  (r : StringPtr) (t' : InternTable) :
  keyed_tables t ->
  Insert t (Some s) is_strong = Returns (r, t') ->
  keyed_tables t' /\
  image_strong_interns_ t' = image_strong_interns_ t /\
  (Permutation (dynamic_refs t') (dynamic_refs t) \/
   Permutation (dynamic_refs t') (s :: dynamic_refs t) /\
   forall e, In e (all_refs t) -> content e <> content s).
Proof.
  intros K. pose proof K as (Ks & Kw & Ki).
  unfold Insert. fold (hash_code_of s).
  destruct is_strong.
  - destruct (Lookup (strong_interns_ t) s _) eqn:Ls.
    { intros [= <- <-]. repeat split; auto. }
    destruct (Lookup (image_strong_interns_ t) s _) eqn:Li.
    { intros [= <- <-]. repeat split; auto. }
    destruct (Lookup (weak_interns_ t) s _) as [w|] eqn:Lw.
    + intros [= <- <-]. simpl.
      pose proof (Lookup_Some _ _ _ _ Lw) as [_ E].
      apply Equals_true, hash_code_same_content in E.
      destruct (Lookup_Remove_split _ _ _ _ Lw) as (l1 & l2 & k & T & R).
      unfold TableInsert. rewrite R, <- E.
      repeat split; simpl; auto.
      * apply keyed_mm_insert, Ks.
      * rewrite T in Kw. eapply keyed_without, Kw.
      * left. unfold dynamic_refs. simpl. rewrite T.
        rewrite (mm_insert_perm (strong_interns_ t) (hash_code_of w) w).
        unfold refs. rewrite !map_app. simpl.
        rewrite !app_assoc. apply Permutation_middle.
    + intros [= <- <-]. unfold TableInsert. repeat split; simpl; auto.
      * apply keyed_mm_insert, Ks.
      * right. split; [|apply all_lookups_fail; assumption].
        unfold dynamic_refs. simpl.
        rewrite (mm_insert_perm (strong_interns_ t) (hash_code_of s) s).
        reflexivity.
  - destruct (Lookup (strong_interns_ t) s _) eqn:Ls.
    { intros [= <- <-]. repeat split; auto. }
    destruct (Lookup (image_strong_interns_ t) s _) eqn:Li.
    { intros [= <- <-]. repeat split; auto. }
    destruct (Lookup (weak_interns_ t) s _) as [w|] eqn:Lw.
    { intros [= <- <-]. repeat split; auto. }
    intros [= <- <-]. unfold TableInsert. repeat split; simpl; auto.
    + apply keyed_mm_insert, Kw.
    + right. split; [|apply all_lookups_fail; assumption].
      unfold dynamic_refs. simpl.
      rewrite (mm_insert_perm (weak_interns_ t) (hash_code_of s) s).
      symmetry. apply Permutation_middle.
Qed.

(** ** The sweep and the visit, entry by entry *)

Lemma sweep_range_keyed {A : Type} (is_marked : IsMarkedTester A)
  (range : Table) (arg : A) :
  keyed range -> keyed (fst (sweep_range is_marked range arg)).
Proof.
  revert arg. induction range as [|[k o] rest IH]; simpl; intros arg K; [exact K|].
  inversion K; subst.
  destruct (is_marked o arg) as [m arg1].
  specialize (IH arg1 ltac:(assumption)).
  destruct (sweep_range is_marked rest arg1) as [kept arg2]. simpl in *.
  destruct m; [constructor|]; assumption.
Qed.

(** Dropping entries keeps contents distinct, whatever comes in front. *)
Lemma sweep_range_distinct {A : Type} (is_marked : IsMarkedTester A)
  (range : Table) (arg : A) (front : list address) :
  distinct_contents (front ++ refs range) ->
  distinct_contents (front ++ refs (fst (sweep_range is_marked range arg))).
Proof.
  unfold distinct_contents.
  revert arg front. induction range as [|[k o] rest IH]; simpl; intros arg front D;
    [exact D|].
  destruct (is_marked o arg) as [m arg1].
  pose proof (IH arg1 front) as IH0.
  pose proof (IH arg1 (front ++ [o])) as IH1.
  destruct (sweep_range is_marked rest arg1) as [kept arg2]. simpl in *.
  destruct m; simpl.
  - rewrite <- !app_assoc in IH1. simpl in IH1. apply IH1, D.
  - apply IH0. rewrite map_app in *. simpl in D.
    eapply NoDup_remove_1, D.
Qed.

Lemma sweep_range_filter {A : Type} (live : address -> bool)
  (range : Table) (arg : A) :
  sweep_range (pure_tester live) range arg =
  (filter (fun entry => live (snd entry)) range, arg).
Proof.
  induction range as [|[k o] rest IH]; simpl; [reflexivity|].
  rewrite IH. destruct (live o); reflexivity.
Qed.

(** What the tracing tester has noted after a walk: one line per entry, in
    the order of the entries, and the kept entries are those answered
    [true]. *)
Lemma sweep_range_tracing {A : Type} (is_marked : IsMarkedTester A)
  (range : Table) (arg : A) (seen : list (address * bool)) :
  exists answers,
    sweep_range (tracing is_marked) range (arg, seen) =
      (fst (sweep_range is_marked range arg),
       (snd (sweep_range is_marked range arg), seen ++ answers)) /\
    map fst answers = refs range /\
    fst (sweep_range is_marked range arg) =
      map fst (filter (fun line => snd (snd line)) (combine range answers)) /\
    (length (fst (sweep_range is_marked range arg)) +
     length (filter (fun line => negb (snd line)) answers) = length range)%nat.
Proof.
  revert arg seen. induction range as [|[k o] rest IH]; intros arg seen.
  - exists []. simpl. rewrite app_nil_r. auto.
  - simpl. unfold tracing at 1. simpl.
    destruct (is_marked o arg) as [m arg1].
    destruct (IH arg1 (seen ++ [(o, m)])) as (answers & E & F & G & L).
    rewrite E. exists ((o, m) :: answers).
    destruct (sweep_range is_marked rest arg1) as [kept arg2]. simpl in *.
    rewrite <- app_assoc. simpl. repeat split.
    + congruence.
    + destruct m; simpl; congruence.
    + destruct m; simpl; lia.
Qed.

Lemma VisitRoots_recording {A : Type} (visitor : RootVisitor A)
  (table : Table) (arg : A) (seen : list address) :
  fold_left (fun a entry => recording visitor (snd entry) a) table (arg, seen) =
  (fold_left (fun a entry => visitor (snd entry) a) table arg, seen ++ refs table).
Proof.
  revert arg seen. induction table as [|[k o] rest IH]; intros arg seen; simpl.
  - rewrite app_nil_r. reflexivity.
  - unfold recording at 2. simpl. rewrite IH, <- app_assoc. reflexivity.
Qed.

(** ** What every reachable table satisfies *)

Lemma distinct_contents_perm (l l' : list address) :
  Permutation l l' -> distinct_contents l -> distinct_contents l'.
Proof.
  unfold distinct_contents. intros P. apply Permutation_NoDup.
  apply Permutation_map, P.
Qed.

Lemma distinct_contents_cons (s : address) (l : list address) :
  (forall e, In e l -> content e <> content s) ->
  distinct_contents l -> distinct_contents (s :: l).
Proof.
  unfold distinct_contents. intros F D. simpl. constructor; [|exact D].
  rewrite in_map_iff. intros (e & E & I). exact (F e I E).
Qed.

Lemma distinct_contents_app_r (l1 l2 : list address) :
  distinct_contents (l1 ++ l2) -> distinct_contents l2.
Proof.
  unfold distinct_contents. rewrite map_app. apply NoDup_app_remove_l.
Qed.

Lemma distinct_contents_app_l (l1 l2 : list address) :
  distinct_contents (l1 ++ l2) -> distinct_contents l1.
Proof.
  unfold distinct_contents. rewrite map_app. apply NoDup_app_remove_r.
Qed.

Lemma distinct_contents_refs (l : list address) :
  distinct_contents l -> NoDup l.
Proof. apply NoDup_map_inv. Qed.

Lemma distinct_contents_same (l : list address) (a b : address) :
  distinct_contents l -> In a l -> In b l -> content a = content b -> a = b.
Proof.
  unfold distinct_contents. induction l as [|x l IH]; simpl; [tauto|].
  intros D. inversion D as [|? ? N D']; subst.
  intros [<-|Ia] [<-|Ib] E; auto.
  - destruct N. rewrite E. apply in_map, Ib.
  - destruct N. rewrite <- E. apply in_map, Ia.
Qed.

Lemma distinct_contents_apart (l1 l2 : list address) (a b : address) :
  distinct_contents (l1 ++ l2) -> In a l1 -> In b l2 -> content a <> content b.
Proof.
  unfold distinct_contents. induction l1 as [|x l1 IH]; simpl; [tauto|].
  intros D. inversion D as [|? ? N D']; subst.
  intros [<-|Ia] Ib E; [|apply (IH D' Ia Ib E)].
  apply N. rewrite E. apply in_map, in_or_app. auto.
Qed.

Lemma RegisterStrong_keyed (t : InternTable) (s : address) (t' : InternTable) :
  keyed_tables t -> RegisterStrong t (Some s) = Returns t' -> keyed_tables t'.
Proof.
  intros (Ks & Kw & Ki) [= <-]. repeat split; simpl; auto.
  apply keyed_mm_insert, Ki.
Qed.

Lemma Sweep_keyed {A : Type} (is_marked : IsMarkedTester A) (arg : A)
  (t : InternTable) :
  keyed_tables t -> keyed_tables (fst (SweepInternTableWeaks is_marked arg t)).
Proof.
  intros (Ks & Kw & Ki). unfold SweepInternTableWeaks.
  pose proof (sweep_range_keyed is_marked _ arg Kw) as K.
  destruct (sweep_range is_marked (weak_interns_ t) arg). simpl in *.
  repeat split; assumption.
Qed.

Lemma Sweep_distinct {A : Type} (is_marked : IsMarkedTester A) (arg : A)
  (t : InternTable) (front : list address) :
  distinct_contents (front ++ dynamic_refs t) ->
  distinct_contents
    (front ++ dynamic_refs (fst (SweepInternTableWeaks is_marked arg t))).
Proof.
  unfold SweepInternTableWeaks, dynamic_refs. intros D.
  pose proof (sweep_range_distinct is_marked (weak_interns_ t) arg
                (front ++ refs (strong_interns_ t))) as S.
  destruct (sweep_range is_marked (weak_interns_ t) arg). simpl in *.
  rewrite <- !app_assoc in S. auto.
Qed.

Lemma Insert_well_formed (t : InternTable) (s : address) (is_strong : bool)
  (r : StringPtr) (t' : InternTable) :
  well_formed t -> Insert t (Some s) is_strong = Returns (r, t') ->
  well_formed t'.
Proof.
  intros [K D] H. destruct (Insert_effect _ _ _ _ _ K H) as (K' & _ & [P|[P F]]).
  - split; [exact K'|]. eapply distinct_contents_perm; [symmetry; exact P|exact D].
  - split; [exact K'|]. eapply distinct_contents_perm; [symmetry; exact P|].
    apply distinct_contents_cons; [|exact D].
    intros e He. apply F. unfold all_refs. apply in_or_app. auto.
Qed.

Lemma Insert_canonical (t : InternTable) (s : address) (is_strong : bool)
  (r : StringPtr) (t' : InternTable) :
  canonical t -> Insert t (Some s) is_strong = Returns (r, t') ->
  canonical t'.
Proof.
  intros [K D] H. destruct (Insert_effect _ _ _ _ _ K H) as (K' & I & [P|[P F]]);
    (split; [exact K'|]); unfold all_refs in *; rewrite I.
  - eapply distinct_contents_perm; [|exact D].
    apply Permutation_app_head. symmetry. exact P.
  - eapply distinct_contents_perm with (l := s :: _ ++ dynamic_refs t).
    + rewrite P. apply Permutation_middle.
    + apply distinct_contents_cons; assumption.
Qed.

Lemma reachable_well_formed (may_register : InternTable -> address -> Prop)
  (t : InternTable) :
  reachable may_register t -> well_formed t.
Proof.
  induction 1 as [|t s t' _ IH _ R|t s r t' _ IH I|t s r t' _ IH I|A f a t _ IH].
  - repeat split; try constructor.
  - destruct IH as [K D]. split; [eapply RegisterStrong_keyed; eauto|].
    injection R as <-. exact D.
  - eapply Insert_well_formed; [exact IH|exact I].
  - eapply Insert_well_formed; [exact IH|exact I].
  - destruct IH as [K D]. split; [apply Sweep_keyed, K|].
    apply (Sweep_distinct f a t []), D.
Qed.

Lemma reachable_canonical (t : InternTable) :
  reachable at_startup_deduplicated t -> canonical t.
Proof.
  induction 1 as [|t s t' _ IH G R|t s r t' _ IH I|t s r t' _ IH I|A f a t _ IH].
  - repeat split; try constructor.
  - destruct IH as [K D]. split; [eapply RegisterStrong_keyed; eauto|].
    destruct G as [[Es Ew] F]. injection R as <-.
    unfold all_refs, dynamic_refs in *. simpl. rewrite Es, Ew in *. simpl in *.
    rewrite app_nil_r in *.
    eapply distinct_contents_perm;
      [symmetry; apply mm_insert_perm|].
    apply distinct_contents_cons; [|exact D].
    apply has_equal_false, F.
  - eapply Insert_canonical; [exact IH|exact I].
  - eapply Insert_canonical; [exact IH|exact I].
  - destruct IH as [K D]. split; [apply Sweep_keyed, K|].
    unfold all_refs in *.
    replace (image_strong_interns_ (fst (SweepInternTableWeaks f a t)))
      with (image_strong_interns_ t).
    + apply Sweep_distinct, D.
    + unfold SweepInternTableWeaks.
      destruct (sweep_range f (weak_interns_ t) a). reflexivity.
Qed.

Lemma canonical_I1 (t : InternTable) : canonical t -> I1 t.
Proof.
  intros [_ D]. unfold all_refs, dynamic_refs in D.
  assert (D' : distinct_contents
                 ((refs (strong_interns_ t) ++ refs (image_strong_interns_ t)) ++
                  refs (weak_interns_ t))).
  { eapply distinct_contents_perm; [|exact D].
    rewrite app_assoc. apply Permutation_app_tail, Permutation_app_comm. }
  repeat split.
  - intros a b Ia Ib. eapply distinct_contents_same; [|exact Ia|exact Ib].
    eapply distinct_contents_app_l, D'.
  - intros a b Ia Ib. eapply distinct_contents_apart; [exact D'| |exact Ib].
    apply in_or_app. auto.
  - intros a b Ia Ib E. subst b.
    eapply distinct_contents_apart; [exact D'|exact Ia|exact Ib|reflexivity].
Qed.

Lemma well_formed_parts (t : InternTable) :
  well_formed t ->
  keyed_tables t /\
  distinct_contents (refs (strong_interns_ t)) /\
  distinct_contents (refs (weak_interns_ t)).
Proof.
  intros [K D]. unfold dynamic_refs in D. split; [exact K|split].
  - eapply distinct_contents_app_l, D.
  - eapply distinct_contents_app_r, D.
Qed.

(** In a keyed table without two equal values, a lookup that hits returns
    the one entry equal to [s]. *)
Lemma Lookup_hit_unique (table : Table) (s x : address) :
  distinct_contents (refs table) ->
  Lookup table s (hash_code_of s) = Some x ->
  forall e, In e (refs table) -> Equals e s = true -> x = e.
Proof.
  intros D L e Ie Ee. apply Lookup_Some in L. destruct L as [Ix Ex].
  apply Equals_true in Ee, Ex.
  eapply distinct_contents_same; eauto. congruence.
Qed.

Lemma Lookup_miss_none (table : Table) (s e : address) :
  keyed table -> Lookup table s (hash_code_of s) = None ->
  In e (refs table) -> Equals e s = true -> False.
Proof.
  intros K L Ie Ee. apply (Lookup_None_keyed _ _ K) in L.
  rewrite has_equal_false in L. apply Equals_true in Ee. exact (L e Ie Ee).
Qed.

Lemma Lookup_hit_has_equal (table : Table) (s x : address) (h : Z) :
  Lookup table s h = Some x -> has_equal table s = false -> False.
Proof.
  intros L H. apply Lookup_Some in L. destruct L as [Ix Ex].
  rewrite has_equal_false in H. apply Equals_true in Ex. exact (H x Ix Ex).
Qed.

Lemma Lookup_miss_has_equal (table : Table) (s : address) :
  keyed table -> Lookup table s (hash_code_of s) = None ->
  has_equal table s = true -> False.
Proof.
  intros K L H. apply (Lookup_None_keyed _ _ K) in L. congruence.
Qed.

(** Closes a goal whose hypotheses say that a lookup hit in a table without
    an equal String, or missed in a keyed table with one. *)
Ltac absurd_lookup :=
  match goal with
  | L : Lookup ?T ?s _ = Some _, H : has_equal ?T ?s = false |- _ =>
      exfalso; exact (Lookup_hit_has_equal _ _ _ _ L H)
  | L : Lookup ?T ?s _ = None, H : has_equal ?T ?s = true |- _ =>
      exfalso; eapply (Lookup_miss_has_equal T s); eassumption
  | L : Lookup ?T ?s _ = None, I : In ?e (refs ?T), E : Equals ?e ?s = true |- _ =>
      exfalso; eapply (Lookup_miss_none T s e); eassumption
  end.

(** Identifies the hit of a lookup with a given equal entry of the table. *)
Ltac unique_hit :=
  match goal with
  | L : Lookup ?T ?s _ = Some ?x, D : distinct_contents (refs ?T),
    I : In ?e (refs ?T), E : Equals ?e ?s = true |- _ =>
      pose proof (Lookup_hit_unique T s x D L e I E); subst x
  end.

(** The entry a promotion takes out of the weak table: it sat under the
    hash code of [s], and what is left holds no String equal to [s]. *)
Lemma promotion_leaves_no_equal (t : InternTable) (s w : address) :
  well_formed t ->
  Lookup (weak_interns_ t) s (hash_code_of s) = Some w ->
  exists l1 l2,
    weak_interns_ t = l1 ++ (hash_code_of s, w) :: l2 /\
    Remove (weak_interns_ t) w (hash_code_of s) = l1 ++ l2 /\
    has_equal (l1 ++ l2) s = false.
Proof.
  intros W L. destruct (well_formed_parts _ W) as ((_ & Kw & _) & _ & Dw).
  pose proof (Lookup_Some _ _ _ _ L) as [_ E]. apply Equals_true in E.
  destruct (Lookup_Remove_split _ _ _ _ L) as (l1 & l2 & k & T & R).
  exists l1, l2. rewrite T in Kw, Dw.
  assert (k = hash_code_of s) as ->.
  { apply keyed_app in Kw. destruct Kw as [_ Kw]. inversion Kw; subst.
    simpl in *. rewrite <- (hash_code_same_content _ _ E). assumption. }
  repeat split; auto.
  apply has_equal_false. intros e Ie Ee.
  unfold distinct_contents, refs in Dw. rewrite !map_app in Dw. simpl in Dw.
  apply NoDup_remove_2 in Dw. apply Dw.
  rewrite E, <- Ee, <- map_app, <- map_app. apply in_map, Ie.
Qed.

(** ** The tables stay in multimap order

    so that the first element stored under a key, where [mm_find] starts,
    is where [std::multimap::find] puts its iterator. *)

Lemma mm_insert_ascending (table : Table) (k : Z) (v : address) :
  ascending table -> ascending (mm_insert table k v).
Proof.
  induction table as [|[k' v'] rest IH]; simpl; [auto|].
  intros [F A]. destruct (Z.ltb_spec k k') as [L|G]; simpl.
  - repeat split; auto. constructor; [simpl; lia|].
    eapply Forall_impl; [|exact F]. simpl. intros; lia.
  - split; [|auto].
    destruct (mm_insert_split rest k v) as (l1 & l2 & E & ->).
    rewrite E in F. apply Forall_app in F. destruct F as [F1 F2].
    apply Forall_app. split; [exact F1|]. constructor; assumption.
Qed.

Lemma ascending_without (l1 l2 : Table) (entry : Z * address) :
  ascending (l1 ++ entry :: l2) -> ascending (l1 ++ l2).
Proof.
  induction l1 as [|[k v] l1 IH]; simpl.
  - destruct entry. tauto.
  - intros [F A]. split; [|auto].
    apply Forall_app in F. destruct F as [F1 F2]. inversion F2; subst.
    apply Forall_app. auto.
Qed.

Lemma sweep_range_Forall {A : Type} (is_marked : IsMarkedTester A)
  (P : Z * address -> Prop) (range : Table) (arg : A) :
  Forall P range -> Forall P (fst (sweep_range is_marked range arg)).
Proof.
  revert arg. induction range as [|[k o] rest IH]; simpl; intros arg F; [exact F|].
  inversion F; subst.
  destruct (is_marked o arg) as [m arg1].
  specialize (IH arg1 ltac:(assumption)).
  destruct (sweep_range is_marked rest arg1) as [kept arg2]. simpl in *.
  destruct m; [constructor|]; assumption.
Qed.

Lemma sweep_range_ascending {A : Type} (is_marked : IsMarkedTester A)
  (range : Table) (arg : A) :
  ascending range -> ascending (fst (sweep_range is_marked range arg)).
Proof.
  revert arg. induction range as [|[k o] rest IH]; simpl; intros arg; [auto|].
  intros [F S].
  destruct (is_marked o arg) as [m arg1].
  pose proof (IH arg1 S) as IH'.
  pose proof (sweep_range_Forall is_marked _ rest arg1 F) as F'.
  destruct (sweep_range is_marked rest arg1) as [kept arg2]. simpl in *.
  destruct m; simpl; auto.
Qed.

Lemma Insert_ascending (t : InternTable) (s : address) (is_strong : bool)
  (r : StringPtr) (t' : InternTable) :
  ascending_tables t -> Insert t (Some s) is_strong = Returns (r, t') ->
  ascending_tables t'.
Proof.
  intros (As & Aw & Ai). unfold Insert. fold (hash_code_of s).
  destruct is_strong;
    (destruct (Lookup (strong_interns_ t) s _) eqn:Ls;
     [intros [= <- <-]; repeat split; assumption|]);
    (destruct (Lookup (image_strong_interns_ t) s _) eqn:Li;
     [intros [= <- <-]; repeat split; assumption|]);
    destruct (Lookup (weak_interns_ t) s _) as [w|] eqn:Lw;
    intros [= <- <-]; repeat split; simpl; auto;
    try (apply mm_insert_ascending; assumption).
  destruct (Lookup_Remove_split _ _ _ _ Lw) as (l1 & l2 & k & T & ->).
  rewrite T in Aw. eapply ascending_without, Aw.
Qed.

Lemma reachable_ascending (may_register : InternTable -> address -> Prop)
  (t : InternTable) :
  reachable may_register t -> ascending_tables t.
Proof.
  induction 1 as [|t s t' _ IH _ R|t s r t' _ IH I|t s r t' _ IH I|A f a t _ IH].
  - repeat split.
  - destruct IH as (As & Aw & Ai). injection R as <-.
    repeat split; simpl; auto. apply mm_insert_ascending, Ai.
  - eapply Insert_ascending; [exact IH|exact I].
  - eapply Insert_ascending; [exact IH|exact I].
  - destruct IH as (As & Aw & Ai). unfold SweepInternTableWeaks.
    pose proof (sweep_range_ascending f _ a Aw) as S.
    destruct (sweep_range f (weak_interns_ t) a). simpl in *.
    repeat split; assumption.
Qed.

(** In a table in multimap order, [mm_find] starts at the lower bound of the
    key: every element before it has a smaller key. *)
Lemma mm_find_lower_bound (table : Table) (k : Z) :
  ascending table -> mm_find table k <> [] ->
  exists before, table = before ++ mm_find table k /\
                 Forall (fun entry => fst entry < k) before.
Proof.
  induction table as [|[k' v'] rest IH]; simpl; [congruence|].
  intros [F A]. destruct (Z.eqb_spec k' k) as [->|N]; intros NE.
  - exists []. auto.
  - destruct (IH A NE) as (before & E & B). exists ((k', v') :: before).
    simpl. split; [congruence|]. constructor; [|exact B]. simpl.
    destruct (mm_find rest k) as [|[k0 v0] tl] eqn:Q; [congruence|].
    assert (k0 = k) as ->.
    { clear - Q. induction rest as [|[k1 v1] rest IH]; simpl in Q; [discriminate|].
      destruct (Z.eqb_spec k1 k); [congruence|auto]. }
    rewrite E in F. apply Forall_app in F. destruct F as [_ F].
    inversion F; subst. simpl in *. lia.
Qed.

(** A run that registers under a condition is a run. *)
Lemma reachable_any_time (may_register : InternTable -> address -> Prop)
  (t : InternTable) :
  reachable may_register t -> reachable any_time t.
Proof.
  induction 1.
  - apply reach_empty.
  - eapply reach_RegisterStrong; [eassumption|exact I|eassumption].
  - eapply reach_InternStrong; eassumption.
  - eapply reach_InternWeak; eassumption.
  - apply reach_Sweep. assumption.
Qed.

(** The table after an insertion holds the old entries and the new one. *)
Lemma mm_insert_entries (table : Table) (k : Z) (v : address) :
  Permutation (mm_insert table k v) ((k, v) :: table).
Proof.
  destruct (mm_insert_split table k v) as (l1 & l2 & E & I).
  rewrite I, E. symmetry. apply Permutation_middle.
Qed.

(** ** The claims *)

(** C1.  A strong intern request for a non-null [s] probes strong, then
    image, then weak.  An entry of strong equal to [s] is what is returned,
    and the table is left alone; failing that, an image entry equal to [s]
    is returned, the table left alone; failing that, an entry of weak equal
    to [s] is returned and promoted: that entry leaves weak, where neither
    it nor any equal String remains, and the strong table afterwards holds
    its old entries and this one, under the hash code of [s]; failing all
    three, [s] itself is returned and inserted into strong, which
    afterwards holds its old entries and [s] under its hash code, weak and
    image being as they were. *)
Theorem C1_strong_intern_priority (t : InternTable) (s : address) :
  reachable any_time t ->
  exists r t',
    Insert t (Some s) true = Returns (Some r, t') /\
    (forall e, In e (refs (strong_interns_ t)) -> Equals e s = true ->
       r = e /\ t' = t) /\
    (has_equal (strong_interns_ t) s = false ->
     has_equal (image_strong_interns_ t) s = true ->
       In r (refs (image_strong_interns_ t)) /\ Equals r s = true /\ t' = t) /\
    (has_equal (strong_interns_ t) s = false ->
     has_equal (image_strong_interns_ t) s = false ->
     forall e, In e (refs (weak_interns_ t)) -> Equals e s = true ->
       r = e /\
       strong_interns_ t' = TableInsert (strong_interns_ t) e (hash_code_of s) /\
       image_strong_interns_ t' = image_strong_interns_ t /\
       has_equal (weak_interns_ t') s = false /\
       Permutation (strong_interns_ t')
                   ((hash_code_of s, e) :: strong_interns_ t) /\
       In e (refs (strong_interns_ t')) /\
       ~ In e (refs (weak_interns_ t')) /\
       exists l1 l2,
         weak_interns_ t = l1 ++ (hash_code_of s, e) :: l2 /\
         weak_interns_ t' = l1 ++ l2) /\
    (has_equal (strong_interns_ t) s = false ->
     has_equal (image_strong_interns_ t) s = false ->
     has_equal (weak_interns_ t) s = false ->
       r = s /\
       t' = mkInternTable
              (TableInsert (strong_interns_ t) s (hash_code_of s))
              (weak_interns_ t) (image_strong_interns_ t) /\
       Permutation (strong_interns_ t')
                   ((hash_code_of s, s) :: strong_interns_ t) /\
       In s (refs (strong_interns_ t')) /\
       weak_interns_ t' = weak_interns_ t /\
       image_strong_interns_ t' = image_strong_interns_ t).
Proof.
  intros R. apply reachable_well_formed in R.
  destruct (well_formed_parts _ R) as ((Ks & Kw & Ki) & Ds & Dw).
  assert (New : forall table k v, In v (refs (mm_insert table k v))).
  { intros table k v.
    eapply Permutation_in; [symmetry; apply mm_insert_perm|]. simpl. auto. }
  unfold Insert. fold (hash_code_of s).
  destruct (Lookup (strong_interns_ t) s _) as [x|] eqn:Ls;
    [|destruct (Lookup (image_strong_interns_ t) s _) as [x|] eqn:Li;
      [|destruct (Lookup (weak_interns_ t) s _) as [x|] eqn:Lw]];
    eexists; eexists; (split; [reflexivity|]); repeat split;
    try solve [intros; absurd_lookup];
    try solve [simpl; apply mm_insert_entries];
    try solve [simpl; apply New].
  - unique_hit. reflexivity.
  - apply Lookup_Some in Li. tauto.
  - apply Lookup_Some in Li. tauto.
  - unique_hit. reflexivity.
  - unique_hit. reflexivity.
  - simpl. destruct (promotion_leaves_no_equal _ _ _ R Lw) as (l1 & l2 & _ & -> & Gone).
    exact Gone.
  - unique_hit. simpl. apply mm_insert_entries.
  - unique_hit. simpl. apply New.
  - unique_hit. simpl.
    destruct (promotion_leaves_no_equal _ _ _ R Lw) as (l1 & l2 & _ & -> & Gone).
    intros I. rewrite has_equal_false in Gone.
    apply (Gone e I). apply Equals_true. assumption.
  - unique_hit. simpl.
    destruct (promotion_leaves_no_equal _ _ _ R Lw) as (l1 & l2 & T & -> & _).
    eauto.
Qed.

(** C2.  A weak intern request for a non-null [s] returns the entry of
    strong equal to [s] when there is one, and leaves the table alone (the
    entry is not copied into weak); else an image entry equal to [s]; else
    the entry of weak equal to [s]; and the table changes only when none of
    the three tables holds a String equal to [s], in which case [s] itself
    is returned and inserted into weak, which afterwards holds its old
    entries and [s] under its hash code, strong and image being as they
    were. *)
Theorem C2_weak_intern_priority (t : InternTable) (s : address) :
  reachable any_time t ->
  exists r t',
    Insert t (Some s) false = Returns (Some r, t') /\
    (forall e, In e (refs (strong_interns_ t)) -> Equals e s = true ->
       r = e /\ t' = t) /\
    (has_equal (strong_interns_ t) s = false ->
     has_equal (image_strong_interns_ t) s = true ->
       In r (refs (image_strong_interns_ t)) /\ Equals r s = true /\ t' = t) /\
    (has_equal (strong_interns_ t) s = false ->
     has_equal (image_strong_interns_ t) s = false ->
     forall e, In e (refs (weak_interns_ t)) -> Equals e s = true ->
       r = e /\ t' = t) /\
    (has_equal (strong_interns_ t) s = false ->
     has_equal (image_strong_interns_ t) s = false ->
     has_equal (weak_interns_ t) s = false ->
       r = s /\
       t' = mkInternTable
              (strong_interns_ t)
              (TableInsert (weak_interns_ t) s (hash_code_of s))
              (image_strong_interns_ t) /\
       Permutation (weak_interns_ t')
                   ((hash_code_of s, s) :: weak_interns_ t) /\
       In s (refs (weak_interns_ t')) /\
       strong_interns_ t' = strong_interns_ t /\
       image_strong_interns_ t' = image_strong_interns_ t) /\
    (t' <> t ->
       has_equal (strong_interns_ t) s = false /\
       has_equal (image_strong_interns_ t) s = false /\
       has_equal (weak_interns_ t) s = false).
Proof.
  intros R. apply reachable_well_formed in R.
  destruct (well_formed_parts _ R) as ((Ks & Kw & Ki) & Ds & Dw).
  assert (New : forall table k v, In v (refs (mm_insert table k v))).
  { intros table k v.
    eapply Permutation_in; [symmetry; apply mm_insert_perm|]. simpl. auto. }
  unfold Insert. fold (hash_code_of s).
  destruct (Lookup (strong_interns_ t) s _) as [x|] eqn:Ls;
    [|destruct (Lookup (image_strong_interns_ t) s _) as [x|] eqn:Li;
      [|destruct (Lookup (weak_interns_ t) s _) as [x|] eqn:Lw]];
    eexists; eexists; (split; [reflexivity|]); repeat split;
    try solve [intros; absurd_lookup];
    try solve [unique_hit; reflexivity];
    try solve [exfalso; auto];
    try solve [apply Lookup_None_keyed; assumption];
    try solve [simpl; apply mm_insert_entries];
    try solve [simpl; apply New].
  - apply Lookup_Some in Li. tauto.
  - apply Lookup_Some in Li. tauto.
Qed.

Lemma Lookup_no_equal (table : Table) (s : address) (h : Z) :
  has_equal table s = false -> Lookup table s h = None.
Proof.
  intros H. destruct (Lookup table s h) eqn:L; [|reflexivity].
  exfalso. eapply Lookup_hit_has_equal; eassumption.
Qed.

Lemma has_equal_same_content (table : Table) (s s' : address) :
  content s = content s' -> has_equal table s = has_equal table s'.
Proof.
  intros E. unfold has_equal.
  induction (refs table) as [|e l IH]; simpl; [reflexivity|].
  rewrite (Equals_same_content e s s' E), IH. reflexivity.
Qed.

(** What a weak intern request returns, when neither strong nor image holds
    an equal String, is what a lookup in the weak table now finds. *)
Lemma InternWeak_result_in_weak (t : InternTable) (v w : address)
  (t1 : InternTable) :
  InternWeak t (Some v) = Returns (Some w, t1) ->
  has_equal (strong_interns_ t1) v = false ->
  has_equal (image_strong_interns_ t1) v = false ->
  Lookup (weak_interns_ t1) v (hash_code_of v) = Some w.
Proof.
  unfold InternWeak, Insert. fold (hash_code_of v).
  destruct (Lookup (strong_interns_ t) v _) as [x|] eqn:Ls;
    [|destruct (Lookup (image_strong_interns_ t) v _) as [x|] eqn:Li;
      [|destruct (Lookup (weak_interns_ t) v _) as [x|] eqn:Lw]];
    intros [= <- <-]; simpl; intros Hs Hi; try absurd_lookup.
  - exact Lw.
  - apply Lookup_insert_fresh; [exact Lw|]. apply Equals_true. reflexivity.
Qed.

(** C3.  Promotion.  Let [InternWeak(v)] return [w], and let neither strong
    nor image hold a String equal to [v].  Then [w] is in the weak table,
    and a following [InternStrong(v')] with [v'] value-equal to [v] returns
    [w] itself, after which [w] is no entry of the weak table,
    [ContainsWeak(w)] is false, and [VisitRoots] calls the visitor with [w],
    once. *)
Theorem C3_promotion (t : InternTable) (v v' w : address) (t1 : InternTable) :
  reachable any_time t ->
  InternWeak t (Some v) = Returns (Some w, t1) ->
  Equals v' v = true ->
  has_equal (strong_interns_ t1) v = false ->
  has_equal (image_strong_interns_ t1) v = false ->
  ContainsWeak t1 (Some w) = Returns true /\
  exists t2,
    InternStrong t1 (Some v') = Returns (Some w, t2) /\
    ~ In w (refs (weak_interns_ t2)) /\
    ContainsWeak t2 (Some w) = Returns false /\
    forall (A : Type) (visitor : RootVisitor A) (arg : A),
      count_occ Pos.eq_dec
        (snd (VisitRoots (recording visitor) (arg, []) t2)) w = 1%nat.
Proof.
  intros R IW E Hs Hi.
  assert (R1 : reachable any_time t1) by (eapply reach_InternWeak; eassumption).
  pose proof (reachable_well_formed _ _ R1) as W1.
  pose proof (InternWeak_result_in_weak _ _ _ _ IW Hs Hi) as Lw.
  pose proof (Lookup_Some _ _ _ _ Lw) as [Iw Ew].
  apply Equals_true in E, Ew.
  destruct (promotion_leaves_no_equal _ _ _ W1 Lw) as (l1 & l2 & T & Rm & Gone).
  split.
  { unfold ContainsWeak. fold (hash_code_of w).
    rewrite (Lookup_same_content _ w v _ Ew), (hash_code_same_content _ _ Ew), Lw.
    rewrite Pos.eqb_refl. reflexivity. }
  assert (I2 : InternStrong t1 (Some v') =
               Returns (Some w,
                        mkInternTable
                          (TableInsert (strong_interns_ t1) w (hash_code_of v))
                          (l1 ++ l2) (image_strong_interns_ t1))).
  { unfold InternStrong, Insert. fold (hash_code_of v').
    rewrite (hash_code_same_content _ _ E).
    rewrite !(Lookup_same_content _ v' v _ E).
    rewrite (Lookup_no_equal _ _ _ Hs), (Lookup_no_equal _ _ _ Hi), Lw, Rm.
    reflexivity. }
  eexists. split; [exact I2|].
  assert (Out : ~ In w (refs (l1 ++ l2))).
  { intros I. rewrite has_equal_false in Gone. exact (Gone w I Ew). }
  split; [exact Out|]. split.
  - unfold ContainsWeak. simpl. destruct (Lookup (l1 ++ l2) w _) eqn:L;
      [|reflexivity].
    exfalso. rewrite (has_equal_same_content _ v w) in Gone by congruence.
    eapply Lookup_hit_has_equal; eassumption.
  - intros A visitor arg. unfold VisitRoots.
    rewrite VisitRoots_recording. simpl.
    assert (R2 : reachable any_time
                   (mkInternTable
                      (TableInsert (strong_interns_ t1) w (hash_code_of v))
                      (l1 ++ l2) (image_strong_interns_ t1)))
      by (eapply reach_InternStrong; [exact R1|exact I2]).
    apply reachable_well_formed, well_formed_parts in R2.
    destruct R2 as (_ & D & _). apply distinct_contents_refs in D. simpl in D.
    apply NoDup_count_occ'; [exact D|].
    unfold TableInsert.
    eapply Permutation_in; [symmetry; apply mm_insert_perm|]. left. reflexivity.
Qed.

(** C4, amended.  Invariant I1 holds in every table that the operations
    produce (strong and weak interning, promotion, sweep, and RegisterStrong),
    provided RegisterStrong runs only while nothing is interned and only
    with a String whose value the image table does not hold yet: a value has
    at most one reference across strong and image, no value is in both
    strong and weak, and a weak entry is an object other than every strong
    and image entry. *)
Theorem C4_I1_preserved (t : InternTable) :
  reachable at_startup_deduplicated t -> I1 t.
Proof. intros R. apply canonical_I1, reachable_canonical, R. Qed.

(** C5.  The sweep asks the liveness tester about every weak entry once, in
    table order; the weak table afterwards is made of the entries answered
    [true], the strong and image tables are the same, and [Size] has gone
    down by the number of [false] answers.  Tracing the tester does not
    change the sweep.  For a tester that only reads marks, the weak table
    afterwards is the old one filtered by the mark. *)
Theorem C5_sweep (t : InternTable) :
  (forall (A : Type) (is_marked : IsMarkedTester A) (arg : A),
     exists t' arg' answers,
       SweepInternTableWeaks (tracing is_marked) (arg, []) t =
         (t', (arg', answers)) /\
       SweepInternTableWeaks is_marked arg t = (t', arg') /\
       map fst answers = refs (weak_interns_ t) /\
       weak_interns_ t' =
         map fst (filter (fun line => snd (snd line))
                    (combine (weak_interns_ t) answers)) /\
       strong_interns_ t' = strong_interns_ t /\
       image_strong_interns_ t' = image_strong_interns_ t /\
       (Size t' + length (filter (fun line => negb (snd line)) answers)
        = Size t)%nat) /\
  (forall (A : Type) (live : address -> bool) (arg : A),
     SweepInternTableWeaks (pure_tester live) arg t =
       (mkInternTable
          (strong_interns_ t)
          (filter (fun entry => live (snd entry)) (weak_interns_ t))
          (image_strong_interns_ t), arg) /\
     (Size (fst (SweepInternTableWeaks (pure_tester live) arg t)) +
      length (filter (fun entry => negb (live (snd entry))) (weak_interns_ t))
      = Size t)%nat).
Proof.
  split.
  - intros A is_marked arg. unfold SweepInternTableWeaks, Size.
    destruct (sweep_range_tracing is_marked (weak_interns_ t) arg [])
      as (answers & E & F & G & L).
    rewrite E.
    destruct (sweep_range is_marked (weak_interns_ t) arg) as [kept arg'].
    simpl in *. exists (mkInternTable (strong_interns_ t) kept
                          (image_strong_interns_ t)), arg', answers.
    simpl. repeat split; auto. lia.
  - intros A live arg. unfold SweepInternTableWeaks, Size.
    rewrite sweep_range_filter. simpl. split; [reflexivity|].
    pose proof (filter_length (fun entry => live (snd entry)) (weak_interns_ t)).
    lia.
Qed.

(** C6.  [VisitRoots] calls the visitor with the references of the strong
    table and nothing else, one call per entry in table order; recording
    the calls does not change what the visitor computes.  So a reference
    that is not in the strong table, be it in the weak or in the image
    table, is never visited, and in a table the operations can produce a
    reference of the strong table is visited once. *)
Theorem C6_visit_roots (t : InternTable) (A : Type) (visitor : RootVisitor A)
  (arg : A) :
  let calls := snd (VisitRoots (recording visitor) (arg, []) t) in
  fst (VisitRoots (recording visitor) (arg, []) t) = VisitRoots visitor arg t /\
  calls = refs (strong_interns_ t) /\
  (forall root, ~ In root (refs (strong_interns_ t)) ->
                In root (refs (weak_interns_ t)) \/
                In root (refs (image_strong_interns_ t)) ->
                count_occ Pos.eq_dec calls root = 0%nat) /\
  (reachable any_time t ->
   forall root, In root (refs (strong_interns_ t)) ->
                count_occ Pos.eq_dec calls root = 1%nat).
Proof.
  unfold VisitRoots. rewrite VisitRoots_recording. simpl. repeat split.
  - intros root N _. apply count_occ_not_In, N.
  - intros R root I. apply NoDup_count_occ'; [|exact I].
    apply reachable_well_formed, well_formed_parts in R.
    destruct R as (_ & D & _). apply distinct_contents_refs, D.
Qed.

(** C7.  [InternStrong(NULL)] and [InternWeak(NULL)] return [NULL] and the
    table they were given, so [Size] reads the same; [Insert] is not run,
    since on [NULL] it does not return. *)
Theorem C7_null_safety (t : InternTable) :
  (exists t', InternStrong t NULL = Returns (NULL, t') /\
              t' = t /\ Size t' = Size t) /\
  (exists t', InternWeak t NULL = Returns (NULL, t') /\
              t' = t /\ Size t' = Size t) /\
  (forall is_strong, Insert t NULL is_strong = NullFault).
Proof.
  split; [|split]; [exists t; auto | exists t; auto | reflexivity].
Qed.

(** C8, amended.  Image precedence.  Let [RegisterStrong(s)] place [s] in
    the image table while neither the strong nor the image table holds a
    String equal to [s].  Then [InternStrong(s')], for every [s']
    value-equal to [s], returns the image instance [s] and leaves the table
    as it is; [Size], the strong and the weak count together, is what it
    was before the registration and after it. *)
Theorem C8_image_precedence (t : InternTable) (s s' : address)
  (t1 : InternTable) :
  has_equal (strong_interns_ t) s = false ->
  has_equal (image_strong_interns_ t) s = false ->
  RegisterStrong t (Some s) = Returns t1 ->
  Equals s' s = true ->
  InternStrong t1 (Some s') = Returns (Some s, t1) /\
  Size t1 = Size t /\
  Size t1 = (length (strong_interns_ t1) + length (weak_interns_ t1))%nat.
Proof.
  intros Hs Hi [= <-] E. apply Equals_true in E.
  split; [|split; reflexivity].
  unfold InternStrong, Insert. simpl. fold (hash_code_of s').
  rewrite (has_equal_same_content _ s s') in Hs by congruence.
  rewrite (has_equal_same_content _ s s') in Hi by congruence.
  rewrite (Lookup_no_equal _ _ _ Hs).
  unfold TableInsert. fold (hash_code_of s).
  rewrite <- (hash_code_same_content _ _ E).
  rewrite Lookup_insert_fresh; [reflexivity| |].
  - apply Lookup_no_equal, Hi.
  - apply Equals_true. congruence.
Qed.

(** C9.  [ContainsWeak(s)] for a non-null [s] is true only if [s] itself,
    the very reference, is an entry of the weak table. *)
Theorem C9_contains_weak_identity (t : InternTable) (s : address) :
  ContainsWeak t (Some s) = Returns true -> In s (refs (weak_interns_ t)).
Proof.
  unfold ContainsWeak.
  destruct (Lookup (weak_interns_ t) s _) as [found|] eqn:L; [|discriminate].
  intros [= Q]. apply Pos.eqb_eq in Q. subst found.
  apply Lookup_Some in L. tauto.
Qed.

(** C10.  [ContainsWeak] reads the hash code of its argument before anything
    else: on [NULL] it does not return, where [InternStrong] and
    [InternWeak] hand [NULL] back; on every non-null String it returns a
    boolean. *)
Theorem C10_contains_weak_needs_non_null (t : InternTable) :
  ContainsWeak t NULL = NullFault /\
  InternStrong t NULL = Returns (NULL, t) /\
  InternWeak t NULL = Returns (NULL, t) /\
  forall s : address, exists b : bool, ContainsWeak t (Some s) = Returns b.
Proof.
  repeat split. intros s. unfold ContainsWeak.
  destruct (Lookup (weak_interns_ t) s _); eauto.
Qed.

(** ** More about the table helpers *)

Lemma mm_find_no_key (table : Table) (k : Z) :
  (forall entry, In entry table -> fst entry <> k) -> mm_find table k = [].
Proof.
  induction table as [|[k' v'] rest IH]; simpl; intros H; [reflexivity|].
  destruct (Z.eqb_spec k' k) as [E|N].
  - destruct (H (k', v')); auto.
  - apply IH. intros entry I. apply H. auto.
Qed.

Lemma filter_from_all (k : Z) (table : Table) :
  Forall (fun entry => k <= fst entry) table ->
  filter (fun entry => k <=? fst entry) table = table.
Proof.
  intros F. apply forallb_filter_id, forallb_forall.
  rewrite Forall_forall in F. intros entry I. apply Z.leb_le, F, I.
Qed.

Lemma mm_find_from_key (table : Table) (k : Z) (v : address) :
  ascending table -> In (k, v) table ->
  mm_find table k = filter (fun entry => k <=? fst entry) table.
Proof.
  induction table as [|[k' v'] rest IH]; simpl; [intros _ []|].
  intros [F A] I. destruct (Z.eqb_spec k' k) as [->|N].
  - rewrite Z.leb_refl, (filter_from_all k rest F). reflexivity.
  - destruct I as [E|I]; [congruence|].
    rewrite Forall_forall in F. pose proof (F _ I) as L. simpl in L.
    destruct (Z.leb_spec k k') as [G|G]; [lia|]. apply IH; assumption.
Qed.

(** X1.  Where [Lookup] looks.  In a table in multimap order, a lookup under
    a hash code no entry is stored under returns [NULL], whatever the table
    holds; when some entry is stored under it, the walk starts there and
    goes on to the end of the table, so what is returned is the first
    value-equal String among all the entries whose key is the hash code or
    greater, not only among those of the bucket. *)
Theorem X1_Lookup_range (table : Table) (s : address) (hash_code : Z) :
  ascending table ->
  ((forall entry, In entry table -> fst entry <> hash_code) ->
   Lookup table s hash_code = NULL) /\
  (forall v, In (hash_code, v) table ->
   Lookup table s hash_code =
   scan_equal s (filter (fun entry => hash_code <=? fst entry) table)).
Proof.
  intros A. unfold Lookup. split.
  - intros H. rewrite (mm_find_no_key _ _ H). reflexivity.
  - intros v I. rewrite (mm_find_from_key _ _ _ A I). reflexivity.
Qed.

(** X2.  In a table whose entries sit under their own hash codes, looking a
    String up under its hash code misses only if no entry of the whole
    table is value-equal to it; a hit is an entry of the table that is
    value-equal to the String. *)
Theorem X2_Lookup_complete (table : Table) (s : address) :
  keyed table ->
  (Lookup table s (hash_code_of s) = NULL <-> has_equal table s = false) /\
  (forall e, Lookup table s (hash_code_of s) = Some e ->
             In e (refs table) /\ content e = content s).
Proof.
  intros K. split.
  - apply Lookup_None_keyed, K.
  - intros e L. apply Lookup_Some in L. destruct L as [I E].
    split; [exact I | apply Equals_true, E].
Qed.

Lemma mm_find_insert_In (table : Table) (k : Z) (v : address) :
  In v (refs (mm_find (mm_insert table k v) k)).
Proof.
  induction table as [|[k' v'] rest IH]; simpl.
  - rewrite Z.eqb_refl. simpl. auto.
  - destruct (k <? k'); simpl.
    + rewrite Z.eqb_refl. simpl. auto.
    + destruct (k' =? k); [|exact IH]. simpl. right.
      eapply Permutation_in; [symmetry; apply mm_insert_perm|]. simpl. auto.
Qed.

Lemma scan_equal_hit (s x : address) (range : Table) :
  In x (refs range) -> Equals x s = true ->
  exists e, scan_equal s range = Some e.
Proof.
  induction range as [|[k y] rest IH]; simpl; [tauto|].
  intros [->|I] E.
  - rewrite E. eauto.
  - destruct (Equals y s); eauto.
Qed.

(** X3.  Insert, then look up.  After a String was inserted under a hash
    code, a lookup of any value-equal String under that hash code never
    returns [NULL]; it returns an entry value-equal to the String, and the
    inserted String itself when the same lookup missed before the
    insertion. *)
Theorem X3_insert_then_Lookup (table : Table) (s s' : address) (hash_code : Z) :
  Equals s s' = true ->
  exists e,
    Lookup (TableInsert table s hash_code) s' hash_code = Some e /\
    Equals e s' = true /\
    (Lookup table s' hash_code = NULL -> e = s).
Proof.
  intros E. unfold TableInsert.
  destruct (scan_equal_hit s' s _ (mm_find_insert_In table hash_code s) E)
    as (e & L).
  exists e. fold (Lookup (mm_insert table hash_code s) s' hash_code) in L.
  split; [exact L|]. split.
  - apply Lookup_Some in L. tauto.
  - intros M. rewrite (Lookup_insert_fresh _ _ _ _ M E) in L. congruence.
Qed.

Lemma erase_first_absent (s : address) (range : Table) :
  ~ In s (refs range) -> erase_first s range = range.
Proof.
  induction range as [|[k v] rest IH]; simpl; [reflexivity|].
  intros N. destruct (Pos.eqb_spec v s) as [E|_]; [destruct N; auto|].
  rewrite IH; auto.
Qed.

Lemma Remove_absent (table : Table) (s : address) (h : Z) :
  ~ In s (refs (mm_find table h)) -> Remove table s h = table.
Proof.
  induction table as [|[k' v'] rest IH]; [reflexivity|].
  cbn [mm_find Remove]. destruct (k' =? h).
  - apply erase_first_absent.
  - intros N. rewrite (IH N). reflexivity.
Qed.

(** X4.  [Remove] erases by pointer, once.  When the String is not among
    the entries from [find(hash_code)] on, the table is left as it is.
    Otherwise exactly one entry holding that very pointer is taken out and
    the table is one entry shorter.  Either way every entry holding another
    pointer stays, a value-equal one too. *)
Theorem X4_Remove_erases_one (table : Table) (s : address) (hash_code : Z) :
  (~ In s (refs (mm_find table hash_code)) ->
   Remove table s hash_code = table) /\
  (In s (refs (mm_find table hash_code)) ->
   exists l1 l2 k,
     table = l1 ++ (k, s) :: l2 /\
     Remove table s hash_code = l1 ++ l2 /\
     S (length (Remove table s hash_code)) = length table) /\
  (forall e, e <> s -> In e (refs table) ->
             In e (refs (Remove table s hash_code))).
Proof.
  assert (P2 : In s (refs (mm_find table hash_code)) ->
               exists l1 l2 k,
                 table = l1 ++ (k, s) :: l2 /\
                 Remove table s hash_code = l1 ++ l2 /\
                 S (length (Remove table s hash_code)) = length table).
  { intros I. destruct (Remove_split _ _ _ I) as (l1 & l2 & k & T & R).
    exists l1, l2, k. repeat split; auto.
    rewrite R, T, !length_app. simpl. lia. }
  split; [apply Remove_absent|]. split; [exact P2|].
  intros e N I.
  destruct (in_dec Pos.eq_dec s (refs (mm_find table hash_code))) as [Y|Y].
  - destruct (P2 Y) as (l1 & l2 & k & T & R & _). rewrite R. rewrite T in I.
    unfold refs in *. rewrite map_app, in_app_iff in *. simpl in I.
    destruct I as [I|[I|I]]; auto. congruence.
  - rewrite (Remove_absent _ _ _ Y). exact I.
Qed.

Lemma erase_first_insert (table : Table) (s : address) (k : Z) :
  ~ In s (refs table) -> erase_first s (mm_insert table k s) = table.
Proof.
  induction table as [|[k' v'] rest IH]; simpl; intros N.
  - rewrite Pos.eqb_refl. reflexivity.
  - destruct (k <? k'); simpl.
    + rewrite Pos.eqb_refl. reflexivity.
    + destruct (Pos.eqb_spec v' s) as [E|_]; [destruct N; auto|].
      rewrite IH; auto.
Qed.

(** X5.  Insert, then remove.  Removing a String just inserted under the
    same hash code gives the table back, entry for entry, when the table
    did not hold that pointer before. *)
Theorem X5_insert_then_Remove (table : Table) (s : address) (hash_code : Z) :
  ~ In s (refs table) ->
  Remove (TableInsert table s hash_code) s hash_code = table.
Proof.
  unfold TableInsert.
  induction table as [|[k' v'] rest IH]; simpl; intros N.
  - rewrite Z.eqb_refl. simpl. rewrite Pos.eqb_refl. reflexivity.
  - destruct (hash_code <? k'); cbn [Remove].
    + rewrite Z.eqb_refl. simpl. rewrite Pos.eqb_refl. reflexivity.
    + destruct (k' =? hash_code).
      * simpl. destruct (Pos.eqb_spec v' s) as [E|_]; [destruct N; auto|].
        rewrite erase_first_insert; auto.
      * rewrite IH; auto.
Qed.

(** ** More about interning *)

(** X6.  What an intern request hands back.  For a non-null candidate
    [Insert] returns a non-null String that is value-equal to the
    candidate and is an entry of the table afterwards: of the strong or
    the image table for a strong request, of one of the three tables for a
    weak one. *)
Theorem X6_Insert_result (t : InternTable) (s : address) (is_strong : bool) :
  exists r t',
    Insert t (Some s) is_strong = Returns (Some r, t') /\
    Equals r s = true /\
    (In r (refs (strong_interns_ t')) \/
     In r (refs (image_strong_interns_ t')) \/
     is_strong = false /\ In r (refs (weak_interns_ t'))).
Proof.
  assert (Self : Equals s s = true) by (apply Equals_true; reflexivity).
  assert (New : forall table k v, In v (refs (TableInsert table v k))).
  { intros table k v. unfold TableInsert.
    eapply Permutation_in; [symmetry; apply mm_insert_perm|]. simpl. auto. }
  unfold Insert. fold (hash_code_of s).
  destruct is_strong;
    (destruct (Lookup (strong_interns_ t) s _) as [x|] eqn:Ls;
     [apply Lookup_Some in Ls; exists x, t; tauto|]);
    (destruct (Lookup (image_strong_interns_ t) s _) as [x|] eqn:Li;
     [apply Lookup_Some in Li; exists x, t; tauto|]);
    destruct (Lookup (weak_interns_ t) s _) as [x|] eqn:Lw;
    try apply Lookup_Some in Lw;
    eexists; eexists; (split; [reflexivity|]); simpl; intuition auto.
Qed.

(** After [Insert] has returned [r], a lookup of the candidate finds [r]:
    in strong, or else in image, or else in weak. *)
Lemma Insert_result_found (t : InternTable) (s : address) (is_strong : bool)
  (r : address) (t' : InternTable) :
  Insert t (Some s) is_strong = Returns (Some r, t') ->
  Lookup (strong_interns_ t') s (hash_code_of s) = Some r \/
  Lookup (strong_interns_ t') s (hash_code_of s) = None /\
  (Lookup (image_strong_interns_ t') s (hash_code_of s) = Some r \/
   Lookup (image_strong_interns_ t') s (hash_code_of s) = None /\
   Lookup (weak_interns_ t') s (hash_code_of s) = Some r).
Proof.
  assert (Self : Equals s s = true) by (apply Equals_true; reflexivity).
  unfold Insert. fold (hash_code_of s).
  destruct is_strong;
    (destruct (Lookup (strong_interns_ t) s _) as [x|] eqn:Ls;
     [intros [= <- <-]; auto|]);
    (destruct (Lookup (image_strong_interns_ t) s _) as [x|] eqn:Li;
     [intros [= <- <-]; auto|]);
    destruct (Lookup (weak_interns_ t) s _) as [x|] eqn:Lw;
    intros [= <- <-]; simpl; unfold TableInsert; auto.
  - left. apply Lookup_insert_fresh; [exact Ls|].
    apply Lookup_Some in Lw. tauto.
  - left. apply Lookup_insert_fresh; assumption.
  - right. split; [exact Ls|]. right. split; [exact Li|].
    apply Lookup_insert_fresh; assumption.
Qed.

(** X7.  Interning is idempotent.  Once a request for [s] has returned [r],
    the next request for any String value-equal to [s], strong or weak,
    returns the same reference [r] and inserts nothing: [Size] stays, and
    the table stays too unless a strong request promotes [r]. *)
Theorem X7_interning_idempotent (t : InternTable) (s s' : address)
  (first next : bool) (r : address) (t' : InternTable) :
  Insert t (Some s) first = Returns (Some r, t') ->
  Equals s' s = true ->
  exists t'',
    Insert t' (Some s') next = Returns (Some r, t'') /\
    Size t'' = Size t' /\
    (next = false -> t'' = t').
Proof.
  intros I E. apply Equals_true in E.
  pose proof (Insert_result_found _ _ _ _ _ I) as F.
  unfold Insert. fold (hash_code_of s').
  rewrite (hash_code_same_content _ _ E), !(Lookup_same_content _ s' s _ E).
  destruct F as [Fs|[Fs [Fi|[Fi Fw]]]].
  - rewrite Fs. exists t'. destruct next; auto.
  - rewrite Fs, Fi. exists t'. destruct next; auto.
  - rewrite Fs, Fi, Fw. destruct next.
    + eexists. split; [reflexivity|]. split; [|discriminate].
      destruct (Lookup_Remove_split _ _ _ _ Fw) as (l1 & l2 & k & T & R).
      unfold Size, TableInsert. simpl.
      rewrite R, T, mm_insert_length, !length_app. simpl. lia.
    + exists t'. auto.
Qed.

(** X8.  What an intern request does to [Size], in a table the operations
    can produce: nothing when one of the three tables holds a String
    value-equal to the candidate (a promotion moves an entry from weak to
    strong and leaves the sum alone), and one more otherwise. *)
Theorem X8_Insert_Size (t : InternTable) (s : address) (is_strong : bool)
  (r : StringPtr) (t' : InternTable) :
  reachable any_time t ->
  Insert t (Some s) is_strong = Returns (r, t') ->
  Size t' =
  if has_equal (strong_interns_ t) s || has_equal (image_strong_interns_ t) s
     || has_equal (weak_interns_ t) s
  then Size t else S (Size t).
Proof.
  intros R. apply reachable_well_formed in R. destruct R as [(Ks & Kw & Ki) _].
  unfold Insert. fold (hash_code_of s).
  pose proof (Lookup_None_keyed _ s Ks) as Hs.
  pose proof (Lookup_None_keyed _ s Ki) as Hi.
  pose proof (Lookup_None_keyed _ s Kw) as Hw.
  assert (B : forall b : bool, b <> false -> b = true)
    by (intros []; congruence).
  destruct is_strong;
    (destruct (Lookup (strong_interns_ t) s _) as [x|] eqn:Ls;
     [intros [= <- <-]; rewrite (B (has_equal (strong_interns_ t) s));
      [reflexivity | rewrite <- Hs; discriminate]|]);
    rewrite (proj1 Hs eq_refl); simpl;
    (destruct (Lookup (image_strong_interns_ t) s _) as [x|] eqn:Li;
     [intros [= <- <-]; rewrite (B (has_equal (image_strong_interns_ t) s));
      [reflexivity | rewrite <- Hi; discriminate]|]);
    rewrite (proj1 Hi eq_refl); simpl;
    destruct (Lookup (weak_interns_ t) s _) as [x|] eqn:Lw;
    intros [= <- <-];
    try (rewrite (B (has_equal (weak_interns_ t) s));
         [|rewrite <- Hw; discriminate]);
    try rewrite (proj1 Hw eq_refl);
    unfold Size, TableInsert; simpl; rewrite ?mm_insert_length; try lia.
  destruct (Lookup_Remove_split _ _ _ _ Lw) as (l1 & l2 & k & T & ->).
  rewrite T, !length_app. simpl. lia.
Qed.

(** X9.  The candidate only matters through its value.  When a request for
    [s] returns a String other than [s] itself, the same request for any
    String value-equal to [s] returns that String too and leaves the same
    table. *)
Theorem X9_equal_candidates_interchangeable (t : InternTable) (s s' : address)
  (is_strong : bool) (r : address) (t' : InternTable) :
  Insert t (Some s) is_strong = Returns (Some r, t') ->
  r <> s ->
  Equals s' s = true ->
  Insert t (Some s') is_strong = Returns (Some r, t').
Proof.
  intros I N E. apply Equals_true in E. revert I.
  unfold Insert. fold (hash_code_of s) (hash_code_of s').
  rewrite (hash_code_same_content _ _ E), !(Lookup_same_content _ s' s _ E).
  destruct is_strong;
    destruct (Lookup (strong_interns_ t) s _); auto;
    destruct (Lookup (image_strong_interns_ t) s _); auto;
    destruct (Lookup (weak_interns_ t) s _); auto;
    intros [= Q _]; congruence.
Qed.

(** X10.  A registered String answers for its value.  After
    [RegisterStrong(s)], on any table, a strong or weak request for a
    String value-equal to [s] returns an entry of the strong or of the
    image table and leaves the table as it is: nothing is inserted, and a
    value-equal weak entry, if there is one, is not promoted. *)
Theorem X10_registered_value_is_served (t : InternTable) (s s' : address)
  (t1 : InternTable) (is_strong : bool) :
  RegisterStrong t (Some s) = Returns t1 ->
  Equals s' s = true ->
  exists r,
    Insert t1 (Some s') is_strong = Returns (Some r, t1) /\
    Equals r s' = true /\
    (In r (refs (strong_interns_ t1)) \/ In r (refs (image_strong_interns_ t1))).
Proof.
  intros [= <-] E. pose proof E as C. apply Equals_true in C.
  assert (E' : Equals s s' = true) by (apply Equals_true; congruence).
  unfold Insert. fold (hash_code_of s'). simpl. fold (hash_code_of s).
  rewrite <- (hash_code_same_content _ _ C).
  destruct (Lookup (strong_interns_ t) s' _) as [x|] eqn:Ls.
  - apply Lookup_Some in Ls. exists x. destruct is_strong; tauto.
  - destruct (scan_equal_hit s' s _
                (mm_find_insert_In (image_strong_interns_ t) (hash_code_of s') s) E')
      as (e & L).
    fold (Lookup (mm_insert (image_strong_interns_ t) (hash_code_of s') s)
            s' (hash_code_of s')) in L.
    unfold TableInsert. rewrite L. apply Lookup_Some in L.
    exists e. destruct is_strong; tauto.
Qed.

(** ** Runs of the table *)

Lemma Insert_keeps_strong (t : InternTable) (s : address) (is_strong : bool)
  (r : StringPtr) (t' : InternTable) :
  Insert t (Some s) is_strong = Returns (r, t') ->
  (forall e, In e (refs (strong_interns_ t)) -> In e (refs (strong_interns_ t'))) /\
  image_strong_interns_ t' = image_strong_interns_ t.
Proof.
  assert (Old : forall table k v e, In e (refs table) ->
                                    In e (refs (TableInsert table v k))).
  { intros table k v e I. unfold TableInsert.
    eapply Permutation_in; [symmetry; apply mm_insert_perm|]. simpl. auto. }
  unfold Insert. fold (hash_code_of s).
  destruct is_strong;
    destruct (Lookup (strong_interns_ t) s _);
    try (intros [= <- <-]; auto; fail);
    destruct (Lookup (image_strong_interns_ t) s _);
    try (intros [= <- <-]; auto; fail);
    destruct (Lookup (weak_interns_ t) s _);
    intros [= <- <-]; simpl; auto.
Qed.

Lemma Sweep_keeps_strong {A : Type} (is_marked : IsMarkedTester A) (arg : A)
  (t : InternTable) :
  strong_interns_ (fst (SweepInternTableWeaks is_marked arg t)) = strong_interns_ t /\
  image_strong_interns_ (fst (SweepInternTableWeaks is_marked arg t)) =
    image_strong_interns_ t.
Proof.
  unfold SweepInternTableWeaks.
  destruct (sweep_range is_marked (weak_interns_ t) arg). auto.
Qed.

Lemma evolves_keeps (may_register : InternTable -> address -> Prop)
  (t t' : InternTable) :
  evolves may_register t t' ->
  (forall e, In e (refs (strong_interns_ t)) -> In e (refs (strong_interns_ t'))) /\
  (forall e, In e (refs (image_strong_interns_ t)) ->
             In e (refs (image_strong_interns_ t'))).
Proof.
  induction 1 as [|t1 s t2 _ [IHs IHi] _ R|t1 s r t2 _ [IHs IHi] I
                  |t1 s r t2 _ [IHs IHi] I|A f a t1 _ [IHs IHi]].
  - auto.
  - injection R as <-. simpl. split; [exact IHs|].
    intros e I. unfold TableInsert.
    eapply Permutation_in; [symmetry; apply mm_insert_perm|]. simpl. auto.
  - destruct (Insert_keeps_strong _ _ _ _ _ I) as [Ks Ki]. rewrite Ki. auto.
  - destruct (Insert_keeps_strong _ _ _ _ _ I) as [Ks Ki]. rewrite Ki. auto.
  - destruct (Sweep_keeps_strong f a t1) as [-> ->]. auto.
Qed.

Lemma reachable_evolves (may_register : InternTable -> address -> Prop)
  (t t' : InternTable) :
  reachable may_register t -> evolves may_register t t' ->
  reachable may_register t'.
Proof.
  intros R. induction 1.
  - exact R.
  - eapply reach_RegisterStrong; eassumption.
  - eapply reach_InternStrong; eassumption.
  - eapply reach_InternWeak; eassumption.
  - apply reach_Sweep. assumption.
Qed.

(** X11.  Nothing leaves the strong or the image table.  Whatever the
    public methods do next (registering, interning strongly or weakly,
    sweeping with any tester), a reference in the strong table stays in
    the strong table and a reference in the image table stays in the image
    table; so a root [VisitRoots] reports now is reported by every later
    visit. *)
Theorem X11_strong_entries_stay (t t' : InternTable) :
  evolves any_time t t' ->
  (forall e, In e (refs (strong_interns_ t)) -> In e (refs (strong_interns_ t'))) /\
  (forall e, In e (refs (image_strong_interns_ t)) ->
             In e (refs (image_strong_interns_ t'))) /\
  (forall (A : Type) (visitor : RootVisitor A) (arg arg' : A) (root : address),
     In root (snd (VisitRoots (recording visitor) (arg, []) t)) ->
     In root (snd (VisitRoots (recording visitor) (arg', []) t'))).
Proof.
  intros E. destruct (evolves_keeps _ _ _ E) as [Ks Ki].
  split; [exact Ks|]. split; [exact Ki|].
  intros A visitor arg arg' root. unfold VisitRoots.
  rewrite !VisitRoots_recording. simpl. apply Ks.
Qed.

Lemma Insert_strong_hit (t : InternTable) (s e : address) (is_strong : bool) :
  well_formed t ->
  In e (refs (strong_interns_ t)) -> Equals e s = true ->
  Insert t (Some s) is_strong = Returns (Some e, t).
Proof.
  intros W I E. destruct (well_formed_parts _ W) as ((Ks & _ & _) & Ds & _).
  unfold Insert. fold (hash_code_of s).
  destruct (Lookup (strong_interns_ t) s (hash_code_of s)) as [x|] eqn:L.
  - unique_hit. destruct is_strong; reflexivity.
  - absurd_lookup.
Qed.

(** X12.  A strongly interned String is canonical for good.  If [r] is in
    the strong table of a table the operations can produce, then after any
    further run of the public methods every strong or weak request for a
    String value-equal to [r] returns [r] and changes nothing. *)
Theorem X12_strong_is_canonical_for_good (t t' : InternTable) (r s : address)
  (is_strong : bool) :
  reachable any_time t ->
  In r (refs (strong_interns_ t)) ->
  evolves any_time t t' ->
  Equals s r = true ->
  Insert t' (Some s) is_strong = Returns (Some r, t').
Proof.
  intros R I E Q. apply Insert_strong_hit.
  - eapply reachable_well_formed, reachable_evolves; eassumption.
  - eapply evolves_keeps; eassumption.
  - apply Equals_true. apply Equals_true in Q. congruence.
Qed.

Lemma ContainsWeak_In_true (t : InternTable) (s : address) :
  well_formed t -> In s (refs (weak_interns_ t)) ->
  ContainsWeak t (Some s) = Returns true.
Proof.
  intros W I. destruct (well_formed_parts _ W) as ((_ & Kw & _) & _ & Dw).
  assert (E : Equals s s = true) by (apply Equals_true; reflexivity).
  unfold ContainsWeak. fold (hash_code_of s).
  destruct (Lookup (weak_interns_ t) s (hash_code_of s)) as [x|] eqn:L.
  - unique_hit. rewrite Pos.eqb_refl. reflexivity.
  - absurd_lookup.
Qed.

Lemma ContainsWeak_not_In_false (t : InternTable) (s : address) :
  ~ In s (refs (weak_interns_ t)) -> ContainsWeak t (Some s) = Returns false.
Proof.
  intros N. unfold ContainsWeak.
  destruct (Lookup (weak_interns_ t) s _) as [x|] eqn:L; [|reflexivity].
  destruct (Pos.eqb_spec x s) as [->|_]; [|reflexivity].
  apply Lookup_Some in L. tauto.
Qed.

(** X13.  In a table the operations can produce, [ContainsWeak] says yes
    for every reference that is an entry of the weak table: no other entry
    stands before it in the lookup. *)
Theorem X13_ContainsWeak_finds_weak_entries (t : InternTable) (s : address) :
  reachable any_time t ->
  In s (refs (weak_interns_ t)) ->
  ContainsWeak t (Some s) = Returns true.
Proof.
  intros R. apply ContainsWeak_In_true, (reachable_well_formed _ _ R).
Qed.

Lemma refs_filter_In (live : address -> bool) (table : Table) (s : address) :
  In s (refs (filter (fun entry => live (snd entry)) table)) <->
  In s (refs table) /\ live s = true.
Proof.
  unfold refs. rewrite !in_map_iff. split.
  - intros ([k v] & <- & I). apply filter_In in I. simpl in *.
    destruct I as [I L]. split; [|exact L]. exists (k, v). auto.
  - intros (([k v] & <- & I) & L). exists (k, v). split; [reflexivity|].
    apply filter_In. auto.
Qed.

(** X14.  Sweep, then [ContainsWeak].  In a table the operations can
    produce, after a sweep with a tester that only reads marks,
    [ContainsWeak(s)] is true exactly when it was true before and [s] is
    marked: live weak Strings are still found, dead ones are gone. *)
Theorem X14_Sweep_then_ContainsWeak (t : InternTable) (s : address)
  (live : address -> bool) (A : Type) (arg : A) (b : bool) :
  reachable any_time t ->
  ContainsWeak t (Some s) = Returns b ->
  ContainsWeak (fst (SweepInternTableWeaks (pure_tester live) arg t)) (Some s)
  = Returns (b && live s).
Proof.
  intros R C.
  assert (R' : reachable any_time
                 (fst (SweepInternTableWeaks (pure_tester live) arg t)))
    by (apply reach_Sweep, R).
  apply reachable_well_formed in R, R'.
  assert (W : weak_interns_ (fst (SweepInternTableWeaks (pure_tester live) arg t))
              = filter (fun entry => live (snd entry)) (weak_interns_ t)).
  { unfold SweepInternTableWeaks. rewrite sweep_range_filter. reflexivity. }
  destruct (in_dec Pos.eq_dec s (refs (weak_interns_ t))) as [I|N].
  - rewrite (ContainsWeak_In_true _ _ R I) in C. injection C as <-. simpl.
    destruct (live s) eqn:L.
    + apply ContainsWeak_In_true; [exact R'|]. rewrite W.
      apply refs_filter_In. auto.
    + apply ContainsWeak_not_In_false. rewrite W, refs_filter_In.
      intros [_ Q]. congruence.
  - rewrite (ContainsWeak_not_In_false _ _ N) in C. injection C as <-. simpl.
    apply ContainsWeak_not_In_false. rewrite W, refs_filter_In. tauto.
Qed.

Lemma filter_twice {X : Type} (f : X -> bool) (l : list X) :
  filter f (filter f l) = filter f l.
Proof.
  induction l as [|x l IH]; simpl; [reflexivity|].
  destruct (f x) eqn:E; simpl; [rewrite E, IH|]; auto.
Qed.

(** X15.  Sweeping again changes nothing.  With a tester that only reads
    marks, a second sweep right after the first leaves the table as the
    first left it; and a sweep that finds every weak entry marked leaves
    the table as it was. *)
Theorem X15_Sweep_idempotent (t : InternTable) (live : address -> bool)
  (A : Type) (arg arg' : A) :
  let swept := fst (SweepInternTableWeaks (pure_tester live) arg t) in
  fst (SweepInternTableWeaks (pure_tester live) arg' swept) = swept /\
  ((forall e, In e (refs (weak_interns_ t)) -> live e = true) -> swept = t).
Proof.
  unfold SweepInternTableWeaks. rewrite !sweep_range_filter. simpl.
  rewrite filter_twice. split; [reflexivity|].
  intros L. destruct t as [st wk im]. simpl in *. f_equal.
  apply forallb_filter_id, forallb_forall. intros [k v] I. simpl.
  apply L. unfold refs. apply in_map_iff. exists (k, v). auto.
Qed.

Lemma sweep_range_incl {A : Type} (is_marked : IsMarkedTester A)
  (range : Table) (arg : A) :
  incl (fst (sweep_range is_marked range arg)) range /\
  (length (fst (sweep_range is_marked range arg)) <= length range)%nat.
Proof.
  revert arg. induction range as [|[k o] rest IH]; simpl; intros arg.
  - split; [apply incl_refl | lia].
  - destruct (is_marked o arg) as [m arg1].
    destruct (IH arg1) as [I L].
    destruct (sweep_range is_marked rest arg1) as [kept arg2]. simpl in *.
    destruct m; simpl; split; try lia.
    + apply incl_cons; [simpl; auto | apply incl_tl, I].
    + apply incl_tl, I.
Qed.

(** X16.  A sweep only takes away.  Whatever the tester answers and
    whatever it does to its argument, every entry of the weak table after
    the sweep was an entry of it before, and [Size] has not grown. *)
Theorem X16_Sweep_only_removes (t : InternTable) (A : Type)
  (is_marked : IsMarkedTester A) (arg : A) :
  incl (weak_interns_ (fst (SweepInternTableWeaks is_marked arg t)))
       (weak_interns_ t) /\
  (Size (fst (SweepInternTableWeaks is_marked arg t)) <= Size t)%nat.
Proof.
  unfold SweepInternTableWeaks, Size.
  destruct (sweep_range_incl is_marked (weak_interns_ t) arg) as [I L].
  destruct (sweep_range is_marked (weak_interns_ t) arg). simpl in *.
  split; [exact I | lia].
Qed.

(** X17.  A swept String is not handed out again.  Let neither the strong
    nor the image table hold a String value-equal to [s], and let every
    weak entry value-equal to [s] be unmarked.  After the sweep, a strong
    or weak request for [s] returns the candidate [s] itself, newly
    inserted ([Size] goes up by one), not the dead entry. *)
Theorem X17_swept_value_is_interned_afresh (t : InternTable) (s : address)
  (live : address -> bool) (A : Type) (arg : A) (is_strong : bool) :
  has_equal (strong_interns_ t) s = false ->
  has_equal (image_strong_interns_ t) s = false ->
  (forall e, In e (refs (weak_interns_ t)) -> Equals e s = true ->
             live e = false) ->
  let swept := fst (SweepInternTableWeaks (pure_tester live) arg t) in
  exists t',
    Insert swept (Some s) is_strong = Returns (Some s, t') /\
    Size t' = S (Size swept).
Proof.
  intros Hs Hi Dead. unfold SweepInternTableWeaks.
  rewrite sweep_range_filter. simpl.
  assert (Hw : has_equal (filter (fun entry => live (snd entry)) (weak_interns_ t)) s
               = false).
  { apply has_equal_false. intros e I C. apply refs_filter_In in I.
    destruct I as [I L]. rewrite (Dead e I) in L; [discriminate|].
    apply Equals_true, C. }
  unfold Insert. simpl.
  rewrite (Lookup_no_equal _ _ _ Hs), (Lookup_no_equal _ _ _ Hi),
    (Lookup_no_equal _ _ _ Hw).
  destruct is_strong; eexists; (split; [reflexivity|]);
    unfold Size, TableInsert; simpl; rewrite mm_insert_length; lia.
Qed.

(** X18.  What every table the operations can produce looks like: each
    entry of the three tables sits under the hash code of its own String,
    and the entries of the strong and weak tables taken together hold
    pairwise different values.  So no reference is entered twice in them,
    no two entries of the strong table and no two of the weak table are
    value-equal, and no entry of the strong table is value-equal to an
    entry of the weak table. *)
Theorem X18_reachable_invariants
  (may_register : InternTable -> address -> Prop) (t : InternTable) :
  reachable may_register t ->
  keyed_tables t /\
  NoDup (map content (refs (strong_interns_ t) ++ refs (weak_interns_ t))) /\
  NoDup (refs (strong_interns_ t) ++ refs (weak_interns_ t)) /\
  (forall a b, In a (refs (strong_interns_ t)) ->
               In b (refs (weak_interns_ t)) -> Equals a b = false).
Proof.
  intros R. destruct (reachable_well_formed _ _ R) as [K D].
  split; [exact K|]. split; [exact D|]. split.
  - apply distinct_contents_refs, D.
  - intros a b Ia Ib. apply Equals_false.
    eapply distinct_contents_apart; [exact D|exact Ia|exact Ib].
Qed.

(** ** The diagnostic dump *)

Lemma decimal_digits (n : nat) : all_digits (decimal n) = true.
Proof.
  unfold decimal. induction (Nat.to_uint n); simpl; auto.
Qed.

Lemma decimal_inj (n m : nat) : decimal n = decimal m -> n = m.
Proof.
  unfold decimal. intros E. apply DecimalNat.Unsigned.to_uint_inj.
  apply (f_equal DecimalString.NilEmpty.uint_of_string) in E.
  rewrite !DecimalString.NilEmpty.usu in E. congruence.
Qed.

Lemma append_same_stream (os x y : String.string) :
  String.append os x = String.append os y -> x = y.
Proof. induction os; simpl; intros E; [exact E | injection E; auto]. Qed.

Lemma digits_then_char (a b : String.string) (c c' : Ascii.ascii)
  (r r' : String.string) :
  all_digits a = true -> all_digits b = true ->
  is_digit c = false -> is_digit c' = false ->
  String.append a (String.String c r) = String.append b (String.String c' r') ->
  a = b /\ r = r'.
Proof.
  revert b. induction a as [|x a IH]; intros [|y b]; simpl;
    intros Da Db Nc Nc' E.
  - injection E as _ E. auto.
  - injection E as -> _. apply andb_prop in Db. destruct Db. congruence.
  - injection E as -> _. apply andb_prop in Da. destruct Da. congruence.
  - injection E as -> E. apply andb_prop in Da, Db.
    destruct Da as [_ Da], Db as [_ Db].
    destruct (IH b Da Db Nc Nc' E) as [-> ->]. auto.
Qed.

(** Two numbers followed by the same text, which does not start with a
    digit, and then by more: equal texts have equal numbers and equal
    rests. *)
Lemma digits_then_text (a b sep x y : String.string) :
  all_digits a = true -> all_digits b = true ->
  all_digits (String.substring 0 1 sep) = false ->
  String.append a (String.append sep x) = String.append b (String.append sep y) ->
  a = b /\ x = y.
Proof.
  intros Da Db N E. destruct sep as [|c sep]; [discriminate|].
  assert (Nc : is_digit c = false).
  { simpl in N. destruct sep; simpl in N; destruct (is_digit c); auto. }
  simpl in E. destruct (digits_then_char _ _ _ _ _ _ Da Db Nc Nc E) as [-> Q].
  split; [reflexivity|]. exact (append_same_stream _ _ _ Q).
Qed.

(** X19.  The dump tells the three counts.  Written to the same stream, two
    dumps are the same text exactly when the strong, the weak and the image
    tables have the same numbers of entries in both tables; the image
    count, which [Size] leaves out, is part of it. *)
Theorem X19_DumpForSigQuit_tells_counts (os : String.string)
  (t t' : InternTable) :
  DumpForSigQuit os t = DumpForSigQuit os t' <->
  length (strong_interns_ t) = length (strong_interns_ t') /\
  length (weak_interns_ t) = length (weak_interns_ t') /\
  length (image_strong_interns_ t) = length (image_strong_interns_ t').
Proof.
  unfold DumpForSigQuit. split.
  - intros E. apply append_same_stream, append_same_stream in E.
    apply digits_then_text in E; try apply decimal_digits; [|reflexivity].
    destruct E as [E1 E].
    apply digits_then_text in E; try apply decimal_digits; [|reflexivity].
    destruct E as [E2 E].
    change DumpText.after_image
      with (String.append DumpText.after_image String.EmptyString) in E.
    apply digits_then_text in E; try apply decimal_digits; [|reflexivity].
    destruct E as [E3 _].
    auto using decimal_inj.
  - intros (-> & -> & ->). reflexivity.
Qed.

End Runtime.

(** ** The table at work on the demo heap *)

Abbreviation demo_Equals := (Equals String.string String.string_dec Demo.content)
  (only parsing).
Abbreviation demo_has_equal :=
  (has_equal String.string String.string_dec Demo.content) (only parsing).
Abbreviation demo_RegisterStrong :=
  (RegisterStrong String.string Demo.content Demo.hash) (only parsing).
Abbreviation demo_Insert :=
  (Insert String.string String.string_dec Demo.content Demo.hash) (only parsing).
Abbreviation demo_InternStrong :=
  (InternStrong String.string String.string_dec Demo.content Demo.hash)
  (only parsing).
Abbreviation demo_InternWeak :=
  (InternWeak String.string String.string_dec Demo.content Demo.hash)
  (only parsing).
Abbreviation demo_ContainsWeak :=
  (ContainsWeak String.string String.string_dec Demo.content Demo.hash)
  (only parsing).
Abbreviation demo_reachable :=
  (reachable String.string String.string_dec Demo.content Demo.hash)
  (only parsing).
Abbreviation demo_deduplicated :=
  (at_startup_deduplicated String.string String.string_dec Demo.content)
  (only parsing).
Abbreviation demo_I1 := (I1 String.string Demo.content) (only parsing).

(** The hash codes under which the demo tables are keyed. *)
Example demo_hash_codes :
  hash_code_of String.string Demo.content Demo.hash 1%positive = 96867 /\
  hash_code_of String.string Demo.content Demo.hash 4%positive = 99351 /\
  hash_code_of String.string Demo.content Demo.hash 6%positive = 109794.
Proof. repeat split. Qed.

(** Registering "dex", interning "oat" strongly and "art" weakly. *)
Lemma demo_interned_reachable : demo_reachable demo_deduplicated Demo.interned.
Proof.
  apply (reach_InternWeak _ _ _ _ _ Demo.before_weak 1%positive (Some 1%positive));
    [|reflexivity].
  apply (reach_InternStrong _ _ _ _ _ Demo.image_only 6%positive (Some 6%positive));
    [|reflexivity].
  apply (reach_RegisterStrong _ _ _ _ _ empty_table 4%positive);
    [apply reach_empty | repeat split | reflexivity].
Defined.

(** A strong request for a second "art" promotes the weak one. *)
Example demo_promotion :
  demo_InternStrong Demo.interned (Some 2%positive) =
  Returns (Some 1%positive,
           mkInternTable [(96867, 1%positive); (109794, 6%positive)] []
             [(99351, 4%positive)]).
Proof. reflexivity. Qed.

(** A sweep with only "art" marked drops a weak "dex". *)
Example demo_sweep :
  SweepInternTableWeaks (pure_tester Demo.art_is_live) tt
    (mkInternTable [] [(96867, 1%positive); (99351, 4%positive)] []) =
  (mkInternTable [] [(96867, 1%positive)] [], tt).
Proof. reflexivity. Qed.

(** [ContainsWeak] tells the interned object from an equal one. *)
Example demo_contains_weak :
  demo_ContainsWeak Demo.interned (Some 1%positive) = Returns true /\
  demo_ContainsWeak Demo.interned (Some 2%positive) = Returns false.
Proof. split; reflexivity. Qed.

(** On the demo table a strong request for a second "art" promotes the
    weak one into a strong table that already holds "oat"; on a table with
    only "oat" interned, a strong request for "art" inserts the candidate
    beside it. *)
Lemma C1_witness :
  demo_reachable any_time Demo.interned /\
  (exists r t',
     demo_Insert Demo.interned (Some 2%positive) true = Returns (Some r, t') /\
     r = 1%positive /\
     In r (refs (strong_interns_ t')) /\
     ~ In r (refs (weak_interns_ t')) /\
     demo_has_equal (weak_interns_ t') 2%positive = false) /\
  demo_reachable any_time (mkInternTable [(109794, 6%positive)] [] []) /\
  (exists r t',
     demo_Insert (mkInternTable [(109794, 6%positive)] [] [])
       (Some 1%positive) true = Returns (Some r, t') /\
     r = 1%positive /\
     In 1%positive (refs (strong_interns_ t')) /\
     In 6%positive (refs (strong_interns_ t'))).
Proof.
  assert (R : demo_reachable any_time Demo.interned)
    by exact (reachable_any_time _ _ _ _ _ _ demo_interned_reachable).
  assert (R6 : demo_reachable any_time (mkInternTable [(109794, 6%positive)] [] [])).
  { apply (reach_InternStrong _ _ _ _ _ empty_table 6%positive (Some 6%positive));
      [apply reach_empty | reflexivity]. }
  split; [exact R|]. split; [|split; [exact R6|]].
  - destruct (C1_strong_intern_priority _ String.string_dec Demo.content Demo.hash
                Demo.interned 2%positive R) as (r & t' & E & _ & _ & P & _).
    exists r, t'. split; [exact E|].
    destruct (P eq_refl eq_refl 1%positive) as (Q & _ & _ & G & _ & M & N & _);
      [simpl; auto | reflexivity |].
    rewrite Q. repeat split; assumption.
  - destruct (C1_strong_intern_priority _ String.string_dec Demo.content Demo.hash
                (mkInternTable [(109794, 6%positive)] [] []) 1%positive R6)
      as (r & t' & E & _ & _ & _ & P).
    exists r, t'. split; [exact E|].
    destruct (P eq_refl eq_refl eq_refl) as (Q & _ & Pm & M & _).
    split; [exact Q|]. split; [exact M|].
    apply (in_map snd) with (x := (109794, 6%positive)).
    eapply Permutation_in; [symmetry; exact Pm|]. simpl. auto.
Defined.

(** On the demo table a weak request for a second "oat" returns the strong
    one and changes nothing; on a table with only a weak "art", a weak
    request for "dex" inserts the candidate beside it. *)
Lemma C2_witness :
  demo_reachable any_time Demo.interned /\
  (exists r t',
     demo_Insert Demo.interned (Some 7%positive) false = Returns (Some r, t') /\
     r = 6%positive /\ t' = Demo.interned) /\
  demo_reachable any_time (mkInternTable [] [(96867, 1%positive)] []) /\
  (exists r t',
     demo_Insert (mkInternTable [] [(96867, 1%positive)] [])
       (Some 4%positive) false = Returns (Some r, t') /\
     r = 4%positive /\
     In 4%positive (refs (weak_interns_ t')) /\
     In 1%positive (refs (weak_interns_ t'))).
Proof.
  assert (R : demo_reachable any_time Demo.interned)
    by exact (reachable_any_time _ _ _ _ _ _ demo_interned_reachable).
  assert (R1 : demo_reachable any_time (mkInternTable [] [(96867, 1%positive)] [])).
  { apply (reach_InternWeak _ _ _ _ _ empty_table 1%positive (Some 1%positive));
      [apply reach_empty | reflexivity]. }
  split; [exact R|]. split; [|split; [exact R1|]].
  - destruct (C2_weak_intern_priority _ String.string_dec Demo.content Demo.hash
                Demo.interned 7%positive R) as (r & t' & E & P & _).
    exists r, t'. split; [exact E|].
    apply (P 6%positive); [simpl; auto | reflexivity].
  - destruct (C2_weak_intern_priority _ String.string_dec Demo.content Demo.hash
                (mkInternTable [] [(96867, 1%positive)] []) 4%positive R1)
      as (r & t' & E & _ & _ & _ & P & _).
    exists r, t'. split; [exact E|].
    destruct (P eq_refl eq_refl eq_refl) as (Q & _ & Pm & M & _).
    split; [exact Q|]. split; [exact M|].
    apply (in_map snd) with (x := (96867, 1%positive)).
    eapply Permutation_in; [symmetry; exact Pm|]. simpl. auto.
Defined.

Lemma C3_witness :
  demo_reachable any_time Demo.before_weak /\
  demo_InternWeak Demo.before_weak (Some 1%positive) =
    Returns (Some 1%positive, Demo.interned) /\
  demo_Equals 2%positive 1%positive = true /\
  exists t2,
    demo_InternStrong Demo.interned (Some 2%positive) =
      Returns (Some 1%positive, t2) /\
    demo_ContainsWeak t2 (Some 1%positive) = Returns false.
Proof.
  assert (R : demo_reachable any_time Demo.before_weak).
  { apply (reach_InternStrong _ _ _ _ _ Demo.image_only 6%positive
             (Some 6%positive)); [|reflexivity].
    apply (reach_RegisterStrong _ _ _ _ _ empty_table 4%positive);
      [apply reach_empty | exact I | reflexivity]. }
  split; [exact R|]. split; [reflexivity|]. split; [reflexivity|].
  destruct (C3_promotion _ String.string_dec Demo.content Demo.hash
              Demo.before_weak 1%positive 2%positive 1%positive Demo.interned
              R eq_refl eq_refl eq_refl eq_refl)
    as (_ & t2 & E & _ & C & _).
  exists t2. split; [exact E | exact C].
Defined.

Lemma C4_witness :
  demo_reachable demo_deduplicated Demo.interned /\ demo_I1 Demo.interned.
Proof.
  split; [exact demo_interned_reachable|].
  exact (C4_I1_preserved _ String.string_dec Demo.content Demo.hash
           Demo.interned demo_interned_reachable).
Defined.

(** C4 as it was claimed: two objects reading "art" are registered at
    start-up, before any interning, and the image table then holds two
    references for one value. *)
Lemma C4_counterexample :
  demo_reachable at_startup Demo.image_art_twice /\
  ~ demo_I1 Demo.image_art_twice.
Proof.
  split.
  - apply (reach_RegisterStrong _ _ _ _ _ Demo.image_art 2%positive);
      [|split; reflexivity|reflexivity].
    apply (reach_RegisterStrong _ _ _ _ _ empty_table 1%positive);
      [apply reach_empty|split; reflexivity|reflexivity].
  - intros (U & _ & _).
    assert (Q : 1%positive = 2%positive)
      by (apply U; simpl; auto).
    discriminate Q.
Qed.

Lemma C6_witness :
  demo_reachable any_time Demo.interned /\
  count_occ Pos.eq_dec
    (snd (VisitRoots (recording (fun _ (n : nat) => S n)) (0%nat, [])
            Demo.interned))
    6%positive = 1%nat.
Proof.
  assert (R : demo_reachable any_time Demo.interned)
    by exact (reachable_any_time _ _ _ _ _ _ demo_interned_reachable).
  split; [exact R|].
  destruct (C6_visit_roots _ String.string_dec Demo.content Demo.hash
              Demo.interned nat (fun _ n => S n) 0%nat) as (_ & _ & _ & Once).
  apply (Once R 6%positive). simpl. auto.
Defined.

Lemma C8_witness :
  demo_has_equal (strong_interns_ Demo.image_only) 1%positive = false /\
  demo_has_equal (image_strong_interns_ Demo.image_only) 1%positive = false /\
  demo_RegisterStrong Demo.image_only (Some 1%positive) =
    Returns (mkInternTable [] [] [(96867, 1%positive); (99351, 4%positive)]) /\
  demo_Equals 2%positive 1%positive = true /\
  demo_InternStrong
    (mkInternTable [] [] [(96867, 1%positive); (99351, 4%positive)])
    (Some 2%positive) =
  Returns (Some 1%positive,
           mkInternTable [] [] [(96867, 1%positive); (99351, 4%positive)]).
Proof.
  repeat (split; [reflexivity|]).
  exact (proj1 (C8_image_precedence _ String.string_dec Demo.content Demo.hash
                  Demo.image_only 1%positive 2%positive _
                  eq_refl eq_refl eq_refl eq_refl)).
Defined.

(** C8 as it was claimed: the image table already holds "art" (object 1)
    when object 2, also "art", is registered; the strong table is empty.  A
    strong request for a third "art" then returns object 1, the entry the
    walk meets first, not the instance just registered.  Both objects were
    placed by [RegisterStrong], and one request cannot return both. *)
Lemma C8_counterexample :
  demo_has_equal (strong_interns_ Demo.image_art) 2%positive = false /\
  demo_RegisterStrong Demo.image_art (Some 2%positive) =
    Returns Demo.image_art_twice /\
  demo_Equals 3%positive 2%positive = true /\
  demo_InternStrong Demo.image_art_twice (Some 3%positive) =
    Returns (Some 1%positive, Demo.image_art_twice) /\
  demo_InternStrong Demo.image_art_twice (Some 3%positive) <>
    Returns (Some 2%positive, Demo.image_art_twice).
Proof.
  repeat (split; [reflexivity|]). discriminate.
Qed.

Lemma C9_witness :
  demo_ContainsWeak Demo.interned (Some 1%positive) = Returns true /\
  In 1%positive (refs (weak_interns_ Demo.interned)).
Proof.
  split; [reflexivity|].
  exact (C9_contains_weak_identity _ String.string_dec Demo.content Demo.hash
           Demo.interned 1%positive eq_refl).
Defined.

(** ** The further properties on the demo heap *)

Abbreviation demo_Lookup :=
  (Lookup String.string String.string_dec Demo.content) (only parsing).
Abbreviation demo_scan_equal :=
  (scan_equal String.string String.string_dec Demo.content) (only parsing).
Abbreviation demo_hash_code_of :=
  (hash_code_of String.string Demo.content Demo.hash) (only parsing).
Abbreviation demo_evolves :=
  (evolves String.string String.string_dec Demo.content Demo.hash)
  (only parsing).

Lemma demo_interned_reachable_any_time : demo_reachable any_time Demo.interned.
Proof.
  exact (reachable_any_time _ _ _ _ _ _ demo_interned_reachable).
Defined.

(** A lookup of a "dex" under the hash code of "art" walks past the "art"
    bucket and returns the "dex" stored under another key. *)
Lemma X1_witness :
  ascending [(96867, 1%positive); (99351, 4%positive)] /\
  demo_Lookup [(96867, 1%positive); (99351, 4%positive)] 5%positive 96867 =
  Some 4%positive.
Proof.
  assert (A : ascending [(96867, 1%positive); (99351, 4%positive)]).
  { simpl. repeat split; repeat constructor; simpl; lia. }
  split; [exact A|].
  rewrite (proj2 (X1_Lookup_range _ String.string_dec Demo.content
                    [(96867, 1%positive); (99351, 4%positive)] 5%positive 96867 A)
             1%positive); [reflexivity | simpl; auto].
Defined.

Lemma X2_witness :
  keyed String.string Demo.content Demo.hash [(96867, 1%positive)] /\
  (demo_Lookup [(96867, 1%positive)] 4%positive (demo_hash_code_of 4%positive)
   = NULL <->
   demo_has_equal [(96867, 1%positive)] 4%positive = false).
Proof.
  assert (K : keyed String.string Demo.content Demo.hash [(96867, 1%positive)])
    by (repeat constructor).
  split; [exact K|].
  exact (proj1 (X2_Lookup_complete _ String.string_dec Demo.content Demo.hash
                  [(96867, 1%positive)] 4%positive K)).
Defined.

Lemma X3_witness :
  demo_Equals 1%positive 2%positive = true /\
  exists e,
    demo_Lookup (TableInsert [(99351, 4%positive)] 1%positive 96867)
      2%positive 96867 = Some e /\
    demo_Equals e 2%positive = true /\
    (demo_Lookup [(99351, 4%positive)] 2%positive 96867 = NULL -> e = 1%positive).
Proof.
  split; [reflexivity|].
  exact (X3_insert_then_Lookup _ String.string_dec Demo.content
           [(99351, 4%positive)] 1%positive 2%positive 96867 eq_refl).
Defined.

Lemma X4_witness :
  In 2%positive (refs (mm_find [(96867, 1%positive); (96867, 2%positive)] 96867)) /\
  exists l1 l2 k,
    [(96867, 1%positive); (96867, 2%positive)] = l1 ++ (k, 2%positive) :: l2 /\
    Remove [(96867, 1%positive); (96867, 2%positive)] 2%positive 96867 = l1 ++ l2 /\
    S (length (Remove [(96867, 1%positive); (96867, 2%positive)] 2%positive 96867))
    = 2%nat.
Proof.
  assert (I : In 2%positive
                (refs (mm_find [(96867, 1%positive); (96867, 2%positive)] 96867)))
    by (simpl; auto).
  split; [exact I|].
  exact (proj1 (proj2 (X4_Remove_erases_one
                         [(96867, 1%positive); (96867, 2%positive)]
                         2%positive 96867)) I).
Defined.

Lemma X5_witness :
  ~ In 1%positive (refs [(96867, 2%positive); (99351, 4%positive)]) /\
  Remove (TableInsert [(96867, 2%positive); (99351, 4%positive)] 1%positive 96867)
    1%positive 96867
  = [(96867, 2%positive); (99351, 4%positive)].
Proof.
  assert (N : ~ In 1%positive (refs [(96867, 2%positive); (99351, 4%positive)])).
  { simpl. intros [H|[H|[]]]; discriminate H. }
  split; [exact N|].
  exact (X5_insert_then_Remove
           [(96867, 2%positive); (99351, 4%positive)]
           1%positive 96867 N).
Defined.

Lemma X7_witness :
  demo_Insert Demo.before_weak (Some 1%positive) false =
    Returns (Some 1%positive, Demo.interned) /\
  demo_Equals 2%positive 1%positive = true /\
  exists t'',
    demo_Insert Demo.interned (Some 2%positive) true =
      Returns (Some 1%positive, t'') /\
    Size t'' = Size Demo.interned /\
    (true = false -> t'' = Demo.interned).
Proof.
  split; [reflexivity|]. split; [reflexivity|].
  exact (X7_interning_idempotent _ String.string_dec Demo.content Demo.hash
           Demo.before_weak 1%positive 2%positive false true 1%positive
           Demo.interned eq_refl eq_refl).
Defined.

Lemma X8_witness :
  demo_reachable any_time Demo.interned /\
  demo_Insert Demo.interned (Some 2%positive) true =
    Returns (Some 1%positive,
             mkInternTable [(96867, 1%positive); (109794, 6%positive)] []
               [(99351, 4%positive)]) /\
  Size (mkInternTable [(96867, 1%positive); (109794, 6%positive)] []
          [(99351, 4%positive)]) = Size Demo.interned.
Proof.
  split; [exact demo_interned_reachable_any_time|]. split; [reflexivity|].
  exact (X8_Insert_Size _ String.string_dec Demo.content Demo.hash
           Demo.interned 2%positive true _ _
           demo_interned_reachable_any_time eq_refl).
Defined.

Lemma X9_witness :
  demo_Insert Demo.interned (Some 2%positive) false =
    Returns (Some 1%positive, Demo.interned) /\
  1%positive <> 2%positive /\
  demo_Equals 3%positive 2%positive = true /\
  demo_Insert Demo.interned (Some 3%positive) false =
    Returns (Some 1%positive, Demo.interned).
Proof.
  assert (N : 1%positive <> 2%positive) by discriminate.
  split; [reflexivity|]. split; [exact N|]. split; [reflexivity|].
  exact (X9_equal_candidates_interchangeable _ String.string_dec Demo.content
           Demo.hash Demo.interned 2%positive 3%positive false 1%positive
           Demo.interned eq_refl N eq_refl).
Defined.

(** "art" is registered while a weak "art" is interned: a strong request
    then returns the image instance and the weak entry is not promoted. *)
Lemma X10_witness :
  demo_RegisterStrong Demo.interned (Some 2%positive) =
    Returns (mkInternTable [(109794, 6%positive)] [(96867, 1%positive)]
               [(96867, 2%positive); (99351, 4%positive)]) /\
  demo_Equals 3%positive 2%positive = true /\
  exists r,
    demo_Insert
      (mkInternTable [(109794, 6%positive)] [(96867, 1%positive)]
         [(96867, 2%positive); (99351, 4%positive)])
      (Some 3%positive) true =
    Returns (Some r,
             mkInternTable [(109794, 6%positive)] [(96867, 1%positive)]
               [(96867, 2%positive); (99351, 4%positive)]) /\
    r = 2%positive.
Proof.
  split; [reflexivity|]. split; [reflexivity|].
  destruct (X10_registered_value_is_served _ String.string_dec Demo.content
              Demo.hash Demo.interned 2%positive 3%positive _ true
              eq_refl eq_refl) as (r & E & _ & _).
  exists r. split; [exact E|]. simpl in E. congruence.
Defined.

Lemma demo_evolves_to_interned : demo_evolves any_time Demo.before_weak Demo.interned.
Proof.
  apply (evolves_InternWeak _ _ _ _ _ _ Demo.before_weak 1%positive
           (Some 1%positive)); [apply evolves_refl | reflexivity].
Defined.

Lemma X11_witness :
  demo_evolves any_time Demo.before_weak Demo.interned /\
  In 6%positive (refs (strong_interns_ Demo.interned)).
Proof.
  split; [exact demo_evolves_to_interned|].
  apply (proj1 (X11_strong_entries_stay _ String.string_dec Demo.content
                  Demo.hash Demo.before_weak Demo.interned
                  demo_evolves_to_interned)).
  simpl. auto.
Defined.

Lemma X12_witness :
  demo_reachable any_time Demo.before_weak /\
  In 6%positive (refs (strong_interns_ Demo.before_weak)) /\
  demo_evolves any_time Demo.before_weak Demo.interned /\
  demo_Equals 7%positive 6%positive = true /\
  demo_Insert Demo.interned (Some 7%positive) false =
    Returns (Some 6%positive, Demo.interned).
Proof.
  assert (R : demo_reachable any_time Demo.before_weak).
  { apply (reach_InternStrong _ _ _ _ _ Demo.image_only 6%positive
             (Some 6%positive)); [|reflexivity].
    apply (reach_RegisterStrong _ _ _ _ _ empty_table 4%positive);
      [apply reach_empty | exact I | reflexivity]. }
  assert (M : In 6%positive (refs (strong_interns_ Demo.before_weak)))
    by (simpl; auto).
  split; [exact R|]. split; [exact M|].
  split; [exact demo_evolves_to_interned|]. split; [reflexivity|].
  exact (X12_strong_is_canonical_for_good _ String.string_dec Demo.content
           Demo.hash Demo.before_weak Demo.interned 6%positive 7%positive false
           R M demo_evolves_to_interned eq_refl).
Defined.

Lemma X13_witness :
  demo_reachable any_time Demo.interned /\
  In 1%positive (refs (weak_interns_ Demo.interned)) /\
  demo_ContainsWeak Demo.interned (Some 1%positive) = Returns true.
Proof.
  assert (M : In 1%positive (refs (weak_interns_ Demo.interned)))
    by (simpl; auto).
  split; [exact demo_interned_reachable_any_time|]. split; [exact M|].
  exact (X13_ContainsWeak_finds_weak_entries _ String.string_dec Demo.content
           Demo.hash Demo.interned 1%positive
           demo_interned_reachable_any_time M).
Defined.

Lemma X14_witness :
  demo_reachable any_time Demo.interned /\
  demo_ContainsWeak Demo.interned (Some 1%positive) = Returns true /\
  demo_ContainsWeak
    (fst (SweepInternTableWeaks (pure_tester (fun _ => false)) tt Demo.interned))
    (Some 1%positive)
  = Returns (true && false).
Proof.
  split; [exact demo_interned_reachable_any_time|]. split; [reflexivity|].
  exact (X14_Sweep_then_ContainsWeak _ String.string_dec Demo.content Demo.hash
           Demo.interned 1%positive (fun _ => false) unit tt true
           demo_interned_reachable_any_time eq_refl).
Defined.

Lemma X15_witness :
  (forall e, In e (refs (weak_interns_ Demo.interned)) ->
             Demo.art_is_live e = true) /\
  fst (SweepInternTableWeaks (pure_tester Demo.art_is_live) tt Demo.interned)
  = Demo.interned.
Proof.
  assert (L : forall e, In e (refs (weak_interns_ Demo.interned)) ->
                        Demo.art_is_live e = true).
  { simpl. intros e [<-|[]]. reflexivity. }
  split; [exact L|].
  exact (proj2 (X15_Sweep_idempotent Demo.interned Demo.art_is_live unit tt tt) L).
Defined.

Lemma X17_witness :
  demo_has_equal (strong_interns_ Demo.interned) 2%positive = false /\
  demo_has_equal (image_strong_interns_ Demo.interned) 2%positive = false /\
  (forall e, In e (refs (weak_interns_ Demo.interned)) ->
             demo_Equals e 2%positive = true -> false = false) /\
  exists t',
    demo_Insert
      (fst (SweepInternTableWeaks (pure_tester (fun _ => false)) tt Demo.interned))
      (Some 2%positive) false
    = Returns (Some 2%positive, t') /\
    Size t' =
    S (Size (fst (SweepInternTableWeaks (pure_tester (fun _ => false)) tt
                    Demo.interned))).
Proof.
  split; [reflexivity|]. split; [reflexivity|].
  split; [intros; reflexivity|].
  exact (X17_swept_value_is_interned_afresh _ String.string_dec Demo.content
           Demo.hash Demo.interned 2%positive (fun _ => false) unit tt false
           eq_refl eq_refl (fun _ _ _ => eq_refl)).
Defined.

Lemma X18_witness :
  demo_reachable any_time Demo.interned /\
  keyed_tables String.string Demo.content Demo.hash Demo.interned /\
  NoDup (map Demo.content
           (refs (strong_interns_ Demo.interned) ++
            refs (weak_interns_ Demo.interned))) /\
  demo_Equals 6%positive 1%positive = false.
Proof.
  split; [exact demo_interned_reachable_any_time|].
  destruct (X18_reachable_invariants _ String.string_dec Demo.content Demo.hash
              any_time Demo.interned demo_interned_reachable_any_time)
    as (K & D & _ & Apart).
  split; [exact K|]. split; [exact D|].
  apply Apart; simpl; auto.
Defined.
